(** * Collective aggregators of XGBoost (src/collective/aggregator.h)

    A shallow embedding of the helpers that sit on top of the communicator:
    [TryApplyWithLabels], the two [ApplyWithLabels] overloads, [GlobalMax],
    [GlobalSum], [GlobalRatio] and [BroadcastGradient].

    Every worker runs the same C++ function; what differs is the rank and the
    contents of its buffers.  A worker's call is embedded as a finite tree of
    steps ([prog]): local steps are logged, a collective call suspends the
    worker until the whole group has issued a matching call.  [run] executes
    a group of workers in lock step and returns, for every rank, how the call
    ended together with the log of what that worker did. *)

From Stdlib Require Import List String Ascii Arith Bool Lia ZArith.
From Stdlib Require Import Floats.PrimFloat.
Import ListNotations.
Local Open Scope string_scope.
Local Open Scope list_scope.
Local Open Scope nat_scope.

Set Implicit Arguments.

(** ** Values shared by all workers *)

(** Modelled from the spec: [Result] of xgboost/collective/result.h, the
    "Outcome" of the data model: either success or a failure carrying a
    message. *)
Inductive Result : Type :=
| Success
| Fail (message : string).

Definition OK (rc : Result) : bool :=
  match rc with Success => true | Fail _ => false end.

(** What a callable may throw.  [TryApplyWithLabels] has a handler for
    [dmlc::Error] only; every other exception type passes through it. *)
Inductive exn : Type :=
| DmlcError (what : string)
| OtherException (what : string).

(** The reduction operators used in this file ([collective::Op]). *)
Inductive Op : Type := kMax | kSum.

Definition Op_eqb (a b : Op) : bool :=
  match a, b with
  | kMax, kMax | kSum, kSum => true
  | _, _ => false
  end.

(** Modelled from the spec: the partition mode that [MetaInfo]
    (xgboost/data.h) reports, with its two queries. *)
Inductive MetaInfo : Type := RowSplit | VerticalFederated | VerticalPlain.

Definition IsRowSplit (info : MetaInfo) : bool :=
  match info with RowSplit => true | _ => false end.

Definition IsVerticalFederated (info : MetaInfo) : bool :=
  match info with VerticalFederated => true | _ => false end.

(** [GradientPair]: two floats.  The code of this file only copies them,
    overwrites them with zero and hands them to the plugin, so the binary64
    primitive floats stand in for the two binary32 fields. *)
Record GradientPair : Type := MkGradientPair { grad_ : float; hess_ : float }.

(** What the element type of a reduced buffer has to offer
    ([Allreduce] with [Op::kMax] / [Op::kSum]). *)
Class Reducible (T : Type) : Type := { reduce : Op -> T -> T -> T }.

(** What [GlobalRatio] asks of its type parameter. *)
Class Arithmetic (T : Type) : Type := {
  le_zero : T -> bool;          (* divisor <= 0 *)
  divide : T -> T -> T;         (* dividend / divisor *)
  quiet_NaN : T                 (* std::numeric_limits<T>::quiet_NaN() *)
}.

(** ** Programs of one worker *)

Section Programs.

Variable T : Type.

(** A typed view handed to a collective: [linalg::MakeVec(ptr, n)].  Sizes
    are container sizes and are kept as [nat]. *)
Inductive payload : Type :=
| PSize (n : nat)               (* one std::size_t / std::uint64_t *)
| PChars (s : string)           (* the characters of a std::string *)
| PBytes (b : list Byte.byte)   (* std::int8_t / std::uint8_t *)
| PVals (v : list T).           (* elements of type T *)

Inductive request : Type :=
| RBroadcast (view : payload) (root : nat)
| RAllreduce (view : list T) (op : Op).

(** What a worker does, in program order. *)
Inductive event : Type :=
| EvApply                                (* the callable is invoked *)
| EvEncrypt (data : list float)          (* plugin: EncryptGradient *)
| EvSync (encrypted : list Byte.byte)    (* plugin: SyncEncryptedGradient *)
| EvResize (n : nat)                     (* a receive buffer is resized *)
| EvFill                                 (* the gradient buffer is overwritten *)
| EvColl (rq : request).                 (* a collective call is issued *)

Inductive prog (A : Type) : Type :=
| Ret (a : A)
| Fatal (msg : string)                   (* LOG(FATAL) << msg *)
| Raise (e : exn)                        (* an exception nobody here catches *)
| Tell (ev : event) (k : prog A)
| Coll (rq : request) (k : Result -> payload -> prog A).

Arguments Fatal {A} msg.
Arguments Raise {A} e.

Fixpoint bind {A B : Type} (p : prog A) (f : A -> prog B) : prog B :=
  match p with
  | Ret a => f a
  | Fatal m => Fatal m
  | Raise e => Raise e
  | Tell ev k => Tell ev (bind k f)
  | Coll rq k => Coll rq (fun rc got => bind (k rc got) f)
  end.

(** ** A group of workers in lock step *)

(** How a worker's call ends. *)
Inductive wresult (A : Type) : Type :=
| Returned (a : A)
| Aborted (msg : string)       (* fatal error reported, process terminates *)
| Threw (e : exn)              (* an exception left the call *)
| Hung                         (* blocked in a collective nobody completes *)
| Mismatched.                  (* took part in an ill-formed collective *)

Arguments Aborted {A} msg.
Arguments Threw {A} e.
Arguments Hung {A}.
Arguments Mismatched {A}.

Inductive status (A : Type) : Type :=
| Finished (r : wresult A)
| Waiting (rq : request) (k : Result -> payload -> prog A).

Definition worker (A : Type) : Type := (status A * list event)%type.

(** Local steps up to the next collective call or the end of the call. *)
Fixpoint advance {A : Type} (p : prog A) (log : list event) : worker A :=
  match p with
  | Ret a => (Finished (Returned a), log)
  | Fatal m => (Finished (Aborted m), log)
  | Raise e => (Finished (Threw e), log)
  | Tell ev k => advance k (log ++ [ev])
  | Coll rq k => (Waiting rq k, log ++ [EvColl rq])
  end.

Definition same_shape (p q : payload) : bool :=
  match p, q with
  | PSize _, PSize _ => true
  | PChars s, PChars t => String.length s =? String.length t
  | PBytes a, PBytes b => List.length a =? List.length b
  | PVals a, PVals b => List.length a =? List.length b
  | _, _ => false
  end.

Definition joins_broadcast (root : nat) (src : payload) (rq : request) : bool :=
  match rq with
  | RBroadcast p r => (r =? root) && same_shape p src
  | RAllreduce _ _ => false
  end.

Definition joins_allreduce (op : Op) (n : nat) (rq : request) : bool :=
  match rq with
  | RAllreduce v o => Op_eqb o op && (List.length v =? n)
  | RBroadcast _ _ => false
  end.

Definition contribution (rq : request) : list T :=
  match rq with
  | RAllreduce v _ => v
  | RBroadcast _ _ => []
  end.

Definition own (rq : request) : payload :=
  match rq with
  | RBroadcast p _ => p
  | RAllreduce v _ => PVals v
  end.

Context `{Reducible T}.

Definition reduce_two (op : Op) (acc v : list T) : list T :=
  map (fun xy => reduce op (fst xy) (snd xy)) (combine acc v).

(** Elementwise combination of all contributions, in rank order. *)
Definition reduce_all (op : Op) (vs : list (list T)) : list T :=
  match vs with
  | [] => []
  | v :: rest => fold_left (reduce_two op) rest v
  end.

(** Modelled from the spec: [Broadcast] (broadcast.h) copies the root's view
    into the identically shaped view of every worker; [Allreduce]
    (allreduce.h) replaces every worker's view by the elementwise
    combination.  [deliver] is what every worker finds in its view after a
    round in which all of them issued matching calls; the round is
    ill-formed when calls or shapes disagree. *)
Definition deliver (rqs : list request) : option payload :=
  match rqs with
  | [] => None
  | RBroadcast _ root :: _ =>
      match nth_error rqs root with
      | Some (RBroadcast src _) =>
          if forallb (joins_broadcast root src) rqs then Some src else None
      | _ => None
      end
  | RAllreduce v op :: _ =>
      if forallb (joins_allreduce op (List.length v)) rqs
      then Some (PVals (reduce_all op (map contribution rqs)))
      else None
  end.

(** Modelled from the spec: a collective call can itself fail (a transport
    fault) and then yields a failure.  [flt round rank] is the error that
    rank's call of the given round reports, if any.  What a failed call
    leaves in the caller's view is not said anywhere; here it is the view as
    it was, and no main result below rests on it. *)
Definition faults : Type := nat -> nat -> option string.

Definition no_fault : faults := fun _ _ => None.

Definition respond (f : option string) (rq : request) (got : payload)
  : Result * payload :=
  match f with
  | Some m => (Fail m, own rq)
  | None => (Success, got)
  end.

Fixpoint imap_from {X Y : Type} (i : nat) (f : nat -> X -> Y) (l : list X)
  : list Y :=
  match l with
  | [] => []
  | x :: l' => f i x :: imap_from (S i) f l'
  end.

Definition pending {A : Type} (w : worker A) : option request :=
  match fst w with
  | Waiting rq _ => Some rq
  | Finished _ => None
  end.

Definition settle {A : Type} (w : worker A) : wresult A * list event :=
  match fst w with
  | Finished r => (r, snd w)
  | Waiting _ _ => (Hung, snd w)
  end.

Definition garble {A : Type} (w : worker A) : wresult A * list event :=
  match fst w with
  | Finished r => (r, snd w)
  | Waiting _ _ => (Mismatched, snd w)
  end.

Definition resume {A : Type} (flt : nat -> option string) (got : payload)
  (rank : nat) (w : worker A) : worker A :=
  match fst w with
  | Waiting rq k =>
      let '(rc, view) := respond (flt rank) rq got in advance (k rc view) (snd w)
  | Finished _ => w
  end.

(** Modelled from the spec: a collective call blocks until every worker
    has issued its counterpart, and a worker whose counterpart never comes
    blocks for ever.  One collective per round; when some worker has left
    the call while another still waits, the waiting ones stay [Hung]. *)
Fixpoint run {A : Type} (flt : faults) (fuel round : nat)
  (ws : list (worker A)) : option (list (wresult A * list event)) :=
  if forallb (fun w => match pending w with Some _ => true | None => false end) ws
     && negb (List.length ws =? 0)
  then
    match deliver (flat_map (fun w => match pending w with
                                      | Some rq => [rq] | None => [] end) ws) with
    | None => Some (map garble ws)
    | Some got =>
        match fuel with
        | 0 => None
        | S fuel' => run flt fuel' (S round) (imap_from 0 (resume (flt round) got) ws)
        end
    end
  else Some (map settle ws).

(** [world] workers, rank [r] running [body r]. *)
Definition spmd {A : Type} (world : nat) (body : nat -> prog A)
  : list (worker A) :=
  map (fun r => advance (body r) []) (seq 0 world).

Definition execute {A : Type} (flt : faults) (world : nat)
  (body : nat -> prog A) : option (list (wresult A * list event)) :=
  run flt 16 0 (spmd world body).

End Programs.

Arguments Ret {T A} a.
Arguments Fatal {T A} msg.
Arguments Raise {T A} e.
Arguments Returned {A} a.
Arguments Aborted {A} msg.
Arguments Threw {A} e.
Arguments Hung {A}.
Arguments Mismatched {A}.
Arguments settle {T A} w.
Arguments garble {T A} w.
Arguments pending {T A} w.
Arguments resume {T A} flt got rank w.
Arguments advance {T A} p log.
Arguments EvApply {T}.
Arguments EvEncrypt {T} data.
Arguments EvSync {T} encrypted.
Arguments EvResize {T} n.
Arguments EvFill {T}.
Arguments PSize {T} n.
Arguments PChars {T} s.
Arguments PBytes {T} b.

Declare Scope prog_scope.
Delimit Scope prog_scope with prog.
Bind Scope prog_scope with prog.

Notation "x <- p ;; k" := (bind p (fun x => k))
  (at level 61, p at next level, right associativity) : prog_scope.
Notation "' pat <- p ;; k" := (bind p (fun x => match x with pat => k end))
  (at level 61, pat pattern, p at next level, right associativity) : prog_scope.
Notation "p ;; k" := (bind p (fun _ => k))
  (at level 61, right associativity) : prog_scope.

(** ** The aggregators *)

Section Aggregator.

Variable T : Type.

(** [T{}], the value [HostDeviceVector<T>::Resize] pads with. *)
Variable T_default : T.

Local Open Scope prog_scope.

(** Modelled from the spec: [Result::operator<<] (result.h), the
    Result-Chaining Protocol: a step runs only while the chain is a success,
    and the chain's value is the first failure.  The steps are closures that
    capture their variables by reference; [X] is what they share. *)
Definition chain {X : Type} (p : prog T (Result * X))
  (step : X -> prog T (Result * X)) : prog T (Result * X) :=
  rcx <- p ;;
  if OK (fst rcx) then step (snd rcx) else Ret rcx.

Notation "p << step" := (chain p step) (at level 50, left associativity)
  : prog_scope.

(** Modelled from the spec: [SafeColl] (comm.h) escalates a failure to a
    fatal error. *)
Definition SafeColl (rc : Result) : prog T unit :=
  match rc with
  | Success => Ret tt
  | Fail msg => Fatal msg
  end.

(** The collective calls as a worker sees them: the view after the call
    comes back with the result code. *)
Definition Broadcast (view : payload T) (root : nat)
  : prog T (Result * payload T) :=
  Coll (RBroadcast view root) (fun rc got => Ret (rc, got)).

Definition Allreduce (view : list T) (op : Op) : prog T (Result * list T) :=
  Coll (RAllreduce view op)
       (fun rc got => Ret (rc, match got with PVals v => v | _ => view end)).

Definition as_size (got : payload T) (dflt : nat) : nat :=
  match got with PSize n => n | _ => dflt end.

Definition as_chars (got : payload T) (dflt : string) : string :=
  match got with PChars s => s | _ => dflt end.

Definition as_bytes (got : payload T) (dflt : list Byte.byte)
  : list Byte.byte :=
  match got with PBytes b => b | _ => dflt end.

Definition as_vals (got : payload T) (dflt : list T) : list T :=
  match got with PVals v => v | _ => dflt end.

(** [std::string::resize] and [HostDeviceVector::Resize]. *)
Fixpoint string_resize (s : string) (n : nat) : string :=
  match n with
  | 0 => EmptyString
  | S n' =>
      match s with
      | EmptyString => String Ascii.zero (string_resize EmptyString n')
      | String c s' => String c (string_resize s' n')
      end
  end.

Definition Resize {X : Type} (v : list X) (n : nat) (pad : X) : list X :=
  firstn n v ++ repeat pad (n - List.length v).

(** A callable and the memory it reaches: the variables it captured by
    reference ([env]) and the buffer its caller passes along ([buf]).
    Calling it yields the memory afterwards and the exception it threw, if
    any. *)
Record store (Env B : Type) : Type := MkStore { env : Env; buf : B }.

Definition callable (M : Type) : Type := M -> M * option exn.

Definition set_buf {Env B : Type} (m : store Env B) (b : B) : store Env B :=
  {| env := env m; buf := b |}.

(** A plain call [fn()]: an exception leaves the caller. *)
Definition invoke {M : Type} (fn : callable M) (m : M) : prog T M :=
  Tell EvApply
    (match fn m with
     | (m', None) => Ret m'
     | (_, Some e) => Raise e
     end).

(** [detail::TryApplyWithLabels], lines 27-54. *)
Definition TryApplyWithLabels {M : Type} (rank : nat) (fn : callable M)
  (m : M) : prog T (Result * M) :=
  (* std::string msg; if (GetRank() == 0) { try { fn(); } catch ... } *)
  '(m, msg) <-
    (if rank =? 0 then
       Tell EvApply
         (match fn m with
          | (m', None) => Ret (m', "")
          | (m', Some (DmlcError what)) => Ret (m', what)
          | (_, Some e) => Raise e
          end)
     else Ret (m, "")) ;;
  let msg_size := String.length msg in
  rcx <- (Ret (Success, (msg_size, msg))
          << (fun '(msg_size, msg) =>
                '(rc, got) <- Broadcast (PSize msg_size) 0 ;;
                Ret (rc, (as_size got msg_size, msg)))
          << (fun '(msg_size, msg) =>
                if 0 <? msg_size then
                  let msg := string_resize msg msg_size in
                  '(rc, got) <- Broadcast (PChars msg) 0 ;;
                  Ret (rc, (msg_size, as_chars got msg))
                else Ret (Success, (msg_size, msg)))
          << (fun '(msg_size, msg) =>
                if 0 <? msg_size then Fatal msg
                else Ret (Success, (msg_size, msg)))) ;;
  Ret (fst rcx, m).

(** [ApplyWithLabels], raw buffer overload, lines 70-84.  The view is
    [size] bytes at [buffer]. *)
Definition ApplyWithLabels_raw {Env : Type} (rank : nat) (info : MetaInfo)
  (size : nat) (fn : callable (store Env (list Byte.byte)))
  (m : store Env (list Byte.byte)) : prog T (store Env (list Byte.byte)) :=
  if IsVerticalFederated info then
    rcm <- (TryApplyWithLabels rank fn m
            << (fun m =>
                  let view := firstn size (buf m) in
                  '(rc, got) <- Broadcast (PBytes view) 0 ;;
                  Ret (rc, set_buf m (as_bytes got view ++ skipn size (buf m))))) ;;
    SafeColl (fst rcm) ;;
    Ret (snd rcm)
  else invoke fn m.

(** [ApplyWithLabels], [HostDeviceVector] overload, lines 99-118. *)
Definition ApplyWithLabels {Env : Type} (rank : nat) (info : MetaInfo)
  (fn : callable (store Env (list T))) (m : store Env (list T))
  : prog T (store Env (list T)) :=
  if IsVerticalFederated info then
    '(rc, m) <- TryApplyWithLabels rank fn m ;;
    (* std::size_t size{result->Size()}; *)
    let size := List.length (buf m) in
    rcx <- (Ret (rc, (size, m))
            << (fun '(size, m) =>
                  '(rc, got) <- Broadcast (PSize size) 0 ;;
                  Ret (rc, (as_size got size, m)))
            << (fun '(size, m) =>
                  Tell (EvResize size)
                    (let result := Resize (buf m) size T_default in
                     '(rc, got) <- Broadcast (PVals result) 0 ;;
                     Ret (rc, (size, set_buf m (as_vals got result)))))) ;;
    SafeColl (fst rcx) ;;
    Ret (snd (snd rcx))
  else invoke fn m.

(** [GlobalMax], lines 131-140. *)
Definition GlobalMax (info : MetaInfo) (value : T) : prog T T :=
  if IsRowSplit info then
    '(rc, got) <- Allreduce [value] kMax ;;
    SafeColl rc ;;
    Ret (hd value got)
  else Ret value.

(** [GlobalSum], lines 153-160.  [values] is a view: the caller sees the
    reduced contents through it. *)
Definition GlobalSum (info : MetaInfo) (values : list T)
  : prog T (Result * list T) :=
  if IsRowSplit info then Allreduce values kSum
  else Ret (Success, values).

(** [GlobalRatio], lines 174-185. *)
Definition GlobalRatio `{Arithmetic T} (info : MetaInfo)
  (dividend divisor : T) : prog T T :=
  let results := [dividend; divisor] in
  '(rc, results) <- GlobalSum info results ;;
  SafeColl rc ;;
  let dividend := nth 0 results dividend in
  let divisor := nth 1 results divisor in
  if le_zero divisor then Ret quiet_NaN
  else Ret (divide dividend divisor).

End Aggregator.

Arguments chain {T X} p step.
Arguments SafeColl {T} rc.
Arguments Broadcast {T} view root.
Arguments invoke {T M} fn m.
Arguments TryApplyWithLabels {T M} rank fn m.
Arguments ApplyWithLabels_raw {T Env} rank info size fn m.
Arguments as_size {T} got dflt.
Arguments as_chars {T} got dflt.
Arguments as_bytes {T} got dflt.

Notation "p << step" := (chain p step) (at level 50, left associativity)
  : prog_scope.

(** ** Gradient broadcast *)

Section Gradient.

Local Open Scope prog_scope.

(** The encryption plugin of the federated communicator
    ([fed.EncryptionPlugin()->EncryptGradient]); its synchronisation entry
    point returns nothing and is seen here as the event [EvSync]. *)
Variable EncryptGradient : list float -> list Byte.byte.

(** [error::NoFederated()] (common/error_msg.h): the text reported when the
    build has no federated support. *)
Variable NoFederated : string.

Definition zero_gpair : GradientPair := MkGradientPair 0%float 0%float.

(** [reinterpret_cast<float const*>(values.data())] over
    [values.size() * 2] floats. *)
Definition as_floats (values : list GradientPair) : list float :=
  flat_map (fun p => [grad_ p; hess_ p]) values.

(** [HostDeviceVector::Fill]. *)
Definition Fill {X : Type} (v : list X) (x : X) : list X :=
  repeat x (List.length v).

(** [BroadcastGradient], lines 195-243.  [use_federated] is the build flag
    [XGBOOST_USE_FEDERATED], [is_encrypted] what [IsEncrypted()] answers;
    [out_gpair] is seen through its data vector. *)
Definition BroadcastGradient {Env : Type} (use_federated is_encrypted : bool)
  (rank : nat) (info : MetaInfo)
  (grad_fn : callable (store Env (list GradientPair)))
  (out_gpair : store Env (list GradientPair))
  : prog GradientPair (store Env (list GradientPair)) :=
  if IsVerticalFederated info && is_encrypted then
    if use_federated then
      (* common::Span<std::uint8_t> encrypted; *)
      '(out_gpair, encrypted) <-
        (if rank =? 0 then
           Tell EvApply
             (match grad_fn out_gpair with
              | (m, None) =>
                  let data := as_floats (buf m) in
                  Tell (EvEncrypt data) (Ret (m, EncryptGradient data))
              | (_, Some e) => Raise e
              end)
         else Ret (out_gpair, [])) ;;
      let n_bytes := List.length encrypted in
      rcx <- (Ret (Success, (n_bytes, encrypted))
              << (fun '(n_bytes, encrypted) =>
                    '(rc, got) <- Broadcast (PSize n_bytes) 0 ;;
                    Ret (rc, (as_size got n_bytes, encrypted)))
              << (fun '(n_bytes, encrypted) =>
                    encrypted <-
                      (if negb (rank =? 0) then
                         Tell (EvResize n_bytes)
                              (Ret (Resize [] n_bytes Byte.x00))
                       else Ret encrypted) ;;
                    '(rc, got) <- Broadcast (PBytes encrypted) 0 ;;
                    Ret (rc, (n_bytes, as_bytes got encrypted)))) ;;
      SafeColl (fst rcx) ;;
      Tell (EvSync (snd (snd rcx)))
        (Tell EvFill
           (let gpair_data := Fill (buf out_gpair) zero_gpair in
            ApplyWithLabels zero_gpair rank info grad_fn
                            (set_buf out_gpair gpair_data)))
    else Fatal NoFederated
  else ApplyWithLabels zero_gpair rank info grad_fn out_gpair.

(** The store of rank [r] when the final [ApplyWithLabels] of the encrypted
    branch starts: [m1] is the leader's store after its first call of
    [grad_fn], [init] gives the stores the ranks came with. *)
Definition zeroed {Env : Type} (init : nat -> store Env (list GradientPair))
  (m1 : store Env (list GradientPair)) (r : nat) : store Env (list GradientPair) :=
  let m := if r =? 0 then m1 else init r in
  set_buf m (Fill (buf m) zero_gpair).

(** The log of rank [r] up to that point. *)
Definition handshake {Env : Type} (m1 : store Env (list GradientPair)) (r : nat)
  : list (event GradientPair) :=
  let data := as_floats (buf m1) in
  let encrypted := EncryptGradient data in
  let n_bytes := List.length encrypted in
  if r =? 0
  then [EvApply; EvEncrypt data;
        EvColl (RBroadcast (PSize n_bytes) 0);
        EvColl (RBroadcast (PBytes encrypted) 0);
        EvSync encrypted; EvFill]
  else [EvColl (RBroadcast (PSize 0) 0);
        EvResize n_bytes;
        EvColl (RBroadcast (PBytes (Resize [] n_bytes Byte.x00)) 0);
        EvSync encrypted; EvFill].

End Gradient.

(** ** Instances of the type parameter *)

(** [double]: IEEE comparison and division, one quiet NaN. *)
#[export] Instance double_Reducible : Reducible float :=
  {| reduce := fun op a b =>
       match op with
       | kSum => PrimFloat.add a b
       | kMax => if PrimFloat.ltb a b then b else a
       end |}.

#[export] Instance double_Arithmetic : Arithmetic float :=
  {| le_zero := fun d => PrimFloat.leb d 0%float;
     divide := PrimFloat.div;
     quiet_NaN := PrimFloat.nan |}.

(** [std::int32_t]: [int] arithmetic on the representable range.  For an
    integral type [std::numeric_limits<T>::has_quiet_NaN] is false and
    [quiet_NaN()] is [T()], that is 0; [/] truncates towards zero. *)
Definition wrap32 (z : Z) : Z := ((z + 2147483648) mod 4294967296 - 2147483648)%Z.

#[export] Instance int32_Reducible : Reducible Z :=
  {| reduce := fun op a b =>
       match op with
       | kSum => wrap32 (a + b)
       | kMax => Z.max a b
       end |}.

#[export] Instance int32_Arithmetic : Arithmetic Z :=
  {| le_zero := fun d => (d <=? 0)%Z;
     divide := fun a b => wrap32 (Z.quot a b);
     quiet_NaN := 0%Z |}.

#[export] Instance GradientPair_Reducible : Reducible GradientPair :=
  {| reduce := fun op a b =>
       MkGradientPair (reduce op (grad_ a) (grad_ b))
                      (reduce op (hess_ a) (hess_ b)) |}.

(** ** Reading the outcome of a run *)

(** A collective call without the contents of its view. *)
Inductive call : Type :=
| CallBroadcast (root : nat)
| CallAllreduce (op : Op).

Definition calls {T : Type} (log : list (event T)) : list call :=
  flat_map (fun ev => match ev with
                      | EvColl (RBroadcast _ root) => [CallBroadcast root]
                      | EvColl (RAllreduce _ op) => [CallAllreduce op]
                      | _ => []
                      end) log.

Definition applications {T : Type} (log : list (event T)) : nat :=
  List.length (filter (fun ev => match ev with EvApply => true | _ => false end) log).

Definition syncs {T : Type} (log : list (event T)) : nat :=
  List.length (filter (fun ev => match ev with EvSync _ => true | _ => false end) log).

(** How the call of rank [r] ended, and its log. *)
Definition outcome_at {T A : Type}
  (out : option (list (wresult A * list (event T)))) (r : nat)
  : option (wresult A * list (event T)) :=
  match out with
  | Some l => nth_error l r
  | None => None
  end.

(** The collective calls of every rank, in rank order. *)
Definition call_logs {T A : Type}
  (out : option (list (wresult A * list (event T))))
  : option (list (list call)) :=
  option_map (map (fun x => calls (snd x))) out.

(** How the calls ended, in rank order. *)
Definition returns_of {T A : Type}
  (out : option (list (wresult A * list (event T))))
  : option (list (wresult A)) :=
  option_map (map (@fst _ _)) out.

(** [pre r] put in front of the log of rank [r]. *)
Definition prepend_logs {T A : Type} (pre : nat -> list (event T))
  (out : list (wresult A * list (event T)))
  : list (wresult A * list (event T)) :=
  imap_from 0 (fun r x => (fst x, pre r ++ snd x)) out.

(** The message [TryApplyWithLabels] keeps of what the callable did. *)
Definition caught_message (e : option exn) : string :=
  match e with
  | Some (DmlcError what) => what
  | _ => ""
  end.

(** The three ways a fault-free [ApplyWithLabels] under vertical federated
    learning can go, told by what the leader's callable did: [m'] is the
    leader's store after the call and [e] what it threw.  Used to state the
    lemmas below, where it is shown to be what [run] computes. *)
Definition apply_outcome {T Env : Type} (T_default : T)
  (init : nat -> store Env (list T)) (m' : store Env (list T)) (e : option exn)
  (r : nat) : wresult (store Env (list T)) * list (event T) :=
  match e with
  | Some (OtherException what) =>
      if r =? 0 then (Threw (OtherException what), [EvApply])
      else (Hung, [EvColl (RBroadcast (PSize 0) 0)])
  | _ =>
      match caught_message e with
      | EmptyString =>
          (Returned (set_buf (if r =? 0 then m' else init r) (buf m')),
           if r =? 0
           then [EvApply; EvColl (RBroadcast (PSize 0) 0);
                 EvColl (RBroadcast (PSize (List.length (buf m'))) 0);
                 EvResize (List.length (buf m'));
                 EvColl (RBroadcast (PVals (buf m')) 0)]
           else [EvColl (RBroadcast (PSize 0) 0);
                 EvColl (RBroadcast (PSize (List.length (buf (init r)))) 0);
                 EvResize (List.length (buf m'));
                 EvColl (RBroadcast
                           (PVals (Resize (buf (init r))
                                          (List.length (buf m')) T_default)) 0)])
      | String c msg =>
          (Aborted (String c msg),
           if r =? 0
           then [EvApply;
                 EvColl (RBroadcast (PSize (S (String.length msg))) 0);
                 EvColl (RBroadcast (PChars (String c msg)) 0)]
           else [EvColl (RBroadcast (PSize 0) 0);
                 EvColl (RBroadcast
                           (PChars (string_resize "" (S (String.length msg))))
                           0)])
      end
  end.

(** What [world = S n] ranks holding [f 0 .. f n] reduce to. *)
Definition fold_ranks {T : Type} `{Reducible T} (op : Op) (f : nat -> T)
  (n : nat) : T :=
  fold_left (fun acc r => reduce op acc (f r)) (seq 1 n) (f 0).

Arguments Resize : simpl never.
Arguments Fill : simpl never.

(** ** A plugin and callables to run the code on *)

(** A plugin that turns every float into four bytes. *)
Definition plugin_example (data : list float) : list Byte.byte :=
  repeat Byte.xff (4 * List.length data).

(** A gradient function that stores two gradient pairs. *)
Definition gradient_example : callable (store unit (list GradientPair)) :=
  fun m => (set_buf m [MkGradientPair 1.5%float 0.25%float;
                       MkGradientPair (-2)%float 1%float], None).

(** A gradient function that reads its buffer: it puts one pair in front
    of what the buffer holds. *)
Definition gradient_prepending : callable (store unit (list GradientPair)) :=
  fun m => (set_buf m (MkGradientPair 1.5%float 0.25%float :: buf m), None).

(** Callables that return, fail with a message, fail with an empty message
    and throw something that is not a [dmlc::Error]. *)
Definition fn_returns : callable (store unit (list Z)) :=
  fun m => (set_buf m [1; 2; 3]%Z, None).

Definition fn_fails : callable (store unit (list Z)) :=
  fun m => (m, Some (DmlcError "boom")).

Definition fn_fails_silently : callable (store unit (list Z)) :=
  fun m => (m, Some (DmlcError "")).

Definition fn_throws : callable (store unit (list Z)) :=
  fun m => (m, Some (OtherException "std::bad_alloc")).

(** A transport on which the call of rank 1 fails in the given round. *)
Definition link_down (round : nat) : faults :=
  fun i rank => if (i =? round) && (rank =? 1) then Some "link down" else None.

(** * Properties *)

(** ** The lock-step run on groups that move together *)

Section RunFacts.

Variable T : Type.
Context `{Reducible T}.
Variable A : Type.

Lemma imap_from_map {X Y : Type} (f : nat -> X -> Y) (g : nat -> X) :
  forall n a,
    imap_from a f (map g (seq a n)) = map (fun r => f r (g r)) (seq a n).
Proof.
  induction n as [|n IH]; intros a; simpl; [reflexivity|].
  now rewrite IH.
Qed.

Lemma pending_requests (ws : nat -> worker T A) (rq : nat -> request T) :
  forall l,
    (forall r, In r l -> pending (ws r) = Some (rq r)) ->
    flat_map (fun w => match pending w with
                       | Some q => [q] | None => [] end) (map ws l)
    = map rq l.
Proof.
  induction l as [|x l IH]; intros Hall; simpl; [reflexivity|].
  rewrite (Hall x) by now left.
  simpl. f_equal. apply IH. intros r Hr. apply Hall. now right.
Qed.

Lemma all_pending (ws : nat -> worker T A) (rq : nat -> request T) :
  forall l,
    (forall r, In r l -> pending (ws r) = Some (rq r)) ->
    forallb (fun w => match pending w with
                      | Some _ => true | None => false end) (map ws l) = true.
Proof.
  intros l Hall. apply forallb_forall. intros w Hw.
  apply in_map_iff in Hw. destruct Hw as [r [<- Hr]].
  now rewrite (Hall r Hr).
Qed.

Lemma deliver_broadcast (pl : nat -> payload T) (n : nat) :
  (forall r, r < S n -> same_shape (pl r) (pl 0) = true) ->
  deliver (map (fun r => RBroadcast (pl r) 0) (seq 0 (S n))) = Some (pl 0).
Proof.
  intros Hshape. unfold deliver.
  change (map (fun r => RBroadcast (pl r) 0) (seq 0 (S n)))
    with (RBroadcast (pl 0) 0 :: map (fun r => RBroadcast (pl r) 0) (seq 1 n)).
  cbn [nth_error].
  change (RBroadcast (pl 0) 0 :: map (fun r => RBroadcast (pl r) 0) (seq 1 n))
    with (map (fun r => RBroadcast (pl r) 0) (seq 0 (S n))).
  replace (forallb (joins_broadcast 0 (pl 0))
             (map (fun r => RBroadcast (pl r) 0) (seq 0 (S n)))) with true;
    [reflexivity|].
  symmetry. apply forallb_forall. intros rq Hrq.
  apply in_map_iff in Hrq. destruct Hrq as [r [<- Hr]].
  apply in_seq in Hr. simpl. apply Hshape. lia.
Qed.

Lemma deliver_allreduce (v : nat -> list T) (op : Op) (n : nat) :
  (forall r, r < S n -> List.length (v r) = List.length (v 0)) ->
  deliver (map (fun r => RAllreduce (v r) op) (seq 0 (S n)))
  = Some (PVals (reduce_all op (map v (seq 0 (S n))))).
Proof.
  intros Hlen. unfold deliver.
  change (map (fun r => RAllreduce (v r) op) (seq 0 (S n)))
    with (RAllreduce (v 0) op :: map (fun r => RAllreduce (v r) op) (seq 1 n)).
  cbv iota beta.
  change (RAllreduce (v 0) op :: map (fun r => RAllreduce (v r) op) (seq 1 n))
    with (map (fun r => RAllreduce (v r) op) (seq 0 (S n))).
  replace (forallb (joins_allreduce op (List.length (v 0)))
             (map (fun r => RAllreduce (v r) op) (seq 0 (S n)))) with true.
  - rewrite map_map. reflexivity.
  - symmetry. apply forallb_forall. intros rq Hrq.
    apply in_map_iff in Hrq. destruct Hrq as [r [<- Hr]].
    apply in_seq in Hr. simpl.
    rewrite (Hlen r) by lia. rewrite Nat.eqb_refl.
    destruct op; reflexivity.
Qed.

(** A round in which every rank broadcasts from rank 0. *)
Lemma run_broadcast_round (flt : faults) (fuel round n : nat)
  (ws : nat -> worker T A) (pl : nat -> payload T) :
  (forall r, r < S n -> pending (ws r) = Some (RBroadcast (pl r) 0)) ->
  (forall r, r < S n -> same_shape (pl r) (pl 0) = true) ->
  run flt (S fuel) round (map ws (seq 0 (S n)))
  = run flt fuel (S round)
        (map (fun r => resume (flt round) (pl 0) r (ws r)) (seq 0 (S n))).
Proof.
  intros Hpend Hshape.
  assert (Hin : forall r, In r (seq 0 (S n)) ->
                          pending (ws r) = Some (RBroadcast (pl r) 0)).
  { intros r Hr. apply in_seq in Hr. apply Hpend. lia. }
  cbn [run].
  rewrite (all_pending ws _ _ Hin), (pending_requests ws _ _ Hin).
  rewrite length_map, length_seq. cbn [Nat.eqb negb andb].
  rewrite (deliver_broadcast pl Hshape).
  now rewrite imap_from_map.
Qed.

(** A round in which every rank joins the same reduction. *)
Lemma run_allreduce_round (flt : faults) (fuel round n : nat)
  (ws : nat -> worker T A) (v : nat -> list T) (op : Op) :
  (forall r, r < S n -> pending (ws r) = Some (RAllreduce (v r) op)) ->
  (forall r, r < S n -> List.length (v r) = List.length (v 0)) ->
  run flt (S fuel) round (map ws (seq 0 (S n)))
  = run flt fuel (S round)
        (map (fun r => resume (flt round)
                         (PVals (reduce_all op (map v (seq 0 (S n))))) r (ws r))
             (seq 0 (S n))).
Proof.
  intros Hpend Hlen.
  assert (Hin : forall r, In r (seq 0 (S n)) ->
                          pending (ws r) = Some (RAllreduce (v r) op)).
  { intros r Hr. apply in_seq in Hr. apply Hpend. lia. }
  cbn [run].
  rewrite (all_pending ws _ _ Hin), (pending_requests ws _ _ Hin).
  rewrite length_map, length_seq. cbn [Nat.eqb negb andb].
  rewrite (deliver_allreduce v op Hlen).
  now rewrite imap_from_map.
Qed.

(** Once some rank has left the call, nobody moves any more. *)
Lemma run_settled (flt : faults) (fuel round : nat) (ws : list (worker T A)) :
  (exists w, In w ws /\ pending w = None) \/ ws = [] ->
  run flt fuel round ws = Some (map settle ws).
Proof.
  intros Hleft.
  assert (Hno : forallb (fun w => match pending w with
                                  | Some _ => true | None => false end) ws
                && negb (List.length ws =? 0) = false).
  { destruct Hleft as [[w [Hin Hw]]| ->]; [|reflexivity].
    apply andb_false_iff. left.
    destruct (forallb _ ws) eqn:Hall; [|reflexivity].
    rewrite forallb_forall in Hall. specialize (Hall w Hin).
    now rewrite Hw in Hall. }
  destruct fuel; cbn [run]; now rewrite Hno.
Qed.

Lemma run_done (flt : faults) (fuel round world : nat)
  (ws : nat -> worker T A) :
  (forall r, r < world -> pending (ws r) = None) ->
  run flt fuel round (map ws (seq 0 world))
  = Some (map (fun r => settle (ws r)) (seq 0 world)).
Proof.
  intros Hdone. rewrite run_settled, map_map; [reflexivity|].
  destruct world as [|n]; [now right|left].
  exists (ws 0). split; [|apply Hdone; lia].
  apply in_map. apply in_seq. lia.
Qed.

(** A rank that has left the call for good stops the group. *)
Lemma run_left (flt : faults) (fuel round world : nat)
  (ws : nat -> worker T A) (gone : nat) :
  gone < world ->
  pending (ws gone) = None ->
  run flt fuel round (map ws (seq 0 world))
  = Some (map (fun r => settle (ws r)) (seq 0 world)).
Proof.
  intros Hlt Hgone. rewrite run_settled, map_map; [reflexivity|].
  left. exists (ws gone). split; [|exact Hgone].
  apply in_map. apply in_seq. lia.
Qed.

End RunFacts.

Lemma outcome_at_map {T A : Type} (f : nat -> wresult A * list (event T))
  (world r : nat) :
  r < world -> outcome_at (Some (map f (seq 0 world))) r = Some (f r).
Proof.
  intros Hr. unfold outcome_at.
  rewrite nth_error_map, nth_error_seq.
  apply Nat.ltb_lt in Hr. now rewrite Hr.
Qed.

(** In any round either no rank meets a fault or some rank does. *)
Lemma round_faults (flt : faults) (i world : nat) :
  (forall k, k < world -> flt i k = None)
  \/ (exists k msg, k < world /\ flt i k = Some msg).
Proof.
  induction world as [|w [IH | [k [msg [Hk Hf]]]]].
  - left. intros k Hk. lia.
  - destruct (flt i w) as [msg|] eqn:Hw.
    + right. exists w, msg. split; [lia|exact Hw].
    + left. intros k Hk. destruct (Nat.eq_dec k w) as [-> | Hne];
        [exact Hw|apply IH; lia].
  - right. exists k, msg. split; [lia|exact Hf].
Qed.

Lemma string_resize_length (s : string) (n : nat) :
  String.length (string_resize s n) = n.
Proof.
  revert s. induction n as [|n IH]; intros s; simpl; [reflexivity|].
  destruct s; simpl; now rewrite IH.
Qed.

Lemma string_resize_same (s : string) : string_resize s (String.length s) = s.
Proof.
  induction s as [|c s IH]; simpl; [reflexivity|now rewrite IH].
Qed.

Lemma Resize_length {X : Type} (v : list X) (n : nat) (pad : X) :
  List.length (Resize v n pad) = n.
Proof.
  unfold Resize. rewrite length_app, length_firstn, repeat_length. lia.
Qed.

Lemma Resize_nil {X : Type} (n : nat) (pad : X) :
  Resize [] n pad = repeat pad n.
Proof.
  unfold Resize. rewrite firstn_nil. cbn [app List.length].
  now rewrite Nat.sub_0_r.
Qed.

Lemma Resize_same {X : Type} (v : list X) (pad : X) :
  Resize v (List.length v) pad = v.
Proof.
  unfold Resize. rewrite firstn_all, Nat.sub_diag. simpl. apply app_nil_r.
Qed.

(** ** What the leader's callable decides *)

(** Ranks are told apart, the leader's callable is replaced by what it did,
    and logs are brought into one shape. *)
Ltac by_rank Hfn :=
  let r := fresh "r" in
  let Hr := fresh "Hr" in
  intros r Hr; destruct r as [|r]; cbn; rewrite ?Hfn; cbn;
  rewrite ?string_resize_same, ?string_resize_length, ?Resize_same,
    ?Resize_length, ?Nat.eqb_refl, <- ?app_assoc;
  try reflexivity.

Ltac broadcast_round pl Hfn :=
  rewrite (run_broadcast_round _ _ _ _ pl); [ | by_rank Hfn | by_rank Hfn ].

Ltac finish_run Hfn :=
  rewrite run_done; [ f_equal; apply map_ext_in; by_rank Hfn | by_rank Hfn ].

Section TryApplyFacts.
Variable T : Type.
Context `{Reducible T}.
Variable M : Type.
Variable fn : callable M.
Variable init : nat -> M.
Variable n : nat.
Variable pre : nat -> list (event T).

Let group : list (worker T (Result * M)) :=
  map (fun r => advance (TryApplyWithLabels r fn (init r)) (pre r))
      (seq 0 (S n)).

Lemma TryApply_quiet m' e fuel round :
  fn (init 0) = (m', e) ->
  e = None \/ e = Some (DmlcError "") ->
  run no_fault (S fuel) round group
  = Some (map (fun r =>
      if r =? 0
      then (Returned (Success, m'),
            pre r ++ [EvApply; EvColl (RBroadcast (PSize 0) 0)])
      else (Returned (Success, init r),
            pre r ++ [EvColl (RBroadcast (PSize 0) 0)])) (seq 0 (S n))).
Proof.
  intros Hfn [-> | ->]; unfold group.
  - broadcast_round (fun _ : nat => @PSize T 0) Hfn. finish_run Hfn.
  - broadcast_round (fun _ : nat => @PSize T 0) Hfn. finish_run Hfn.
Qed.

Lemma TryApply_error m' c msg fuel round :
  fn (init 0) = (m', Some (DmlcError (String c msg))) ->
  run no_fault (S (S fuel)) round group
  = Some (map (fun r =>
      (Aborted (String c msg),
       pre r ++
       if r =? 0
       then [EvApply;
             EvColl (RBroadcast (PSize (S (String.length msg))) 0);
             EvColl (RBroadcast (PChars (String c msg)) 0)]
       else [EvColl (RBroadcast (PSize 0) 0);
             EvColl (RBroadcast
                       (PChars (string_resize "" (S (String.length msg)))) 0)]))
      (seq 0 (S n))).
Proof.
  intros Hfn. unfold group.
  broadcast_round (fun r => @PSize T (if r =? 0 then S (String.length msg) else 0)) Hfn.
  broadcast_round (fun r => @PChars T (if r =? 0 then String c msg
                                  else string_resize "" (S (String.length msg)))) Hfn.
  finish_run Hfn.
Qed.

Lemma TryApply_escapes m' what fuel round :
  fn (init 0) = (m', Some (OtherException what)) ->
  run no_fault fuel round group
  = Some (map (fun r =>
      if r =? 0 then (Threw (OtherException what), pre r ++ [EvApply])
      else (Hung, pre r ++ [EvColl (RBroadcast (PSize 0) 0)])) (seq 0 (S n))).
Proof.
  intros Hfn. unfold group.
  rewrite run_left with (gone := 0);
    [ f_equal; apply map_ext_in; by_rank Hfn | lia | cbn; now rewrite Hfn ].
Qed.
End TryApplyFacts.

Section ApplyFacts.
Variable T : Type.
Context `{Reducible T}.
Variable T_default : T.
Variable Env : Type.
Variable fn : callable (store Env (list T)).
Variable init : nat -> store Env (list T).
Variable n : nat.
Variable pre : nat -> list (event T).

Let group : list (worker T (store Env (list T))) :=
  map (fun r => advance (ApplyWithLabels T_default r VerticalFederated fn (init r))
                        (pre r))
      (seq 0 (S n)).

Lemma ApplyWithLabels_quiet m' e fuel round :
  fn (init 0) = (m', e) ->
  e = None \/ e = Some (DmlcError "") ->
  run no_fault (S (S (S fuel))) round group
  = Some (map (fun r =>
      (Returned (set_buf (if r =? 0 then m' else init r) (buf m')),
       pre r ++
       if r =? 0
       then [EvApply; EvColl (RBroadcast (PSize 0) 0);
             EvColl (RBroadcast (PSize (List.length (buf m'))) 0);
             EvResize (List.length (buf m'));
             EvColl (RBroadcast (PVals (buf m')) 0)]
       else [EvColl (RBroadcast (PSize 0) 0);
             EvColl (RBroadcast (PSize (List.length (buf (init r)))) 0);
             EvResize (List.length (buf m'));
             EvColl (RBroadcast
                       (PVals (Resize (buf (init r)) (List.length (buf m'))
                                      T_default)) 0)]))
      (seq 0 (S n))).
Proof.
  intros Hfn [-> | ->]; unfold group, ApplyWithLabels.
  - broadcast_round (fun _ : nat => @PSize T 0) Hfn.
    broadcast_round (fun r => @PSize T (List.length (buf (if r =? 0 then m' else init r)))) Hfn.
    broadcast_round (fun r => PVals (if r =? 0 then buf m'
                                     else Resize (buf (init r)) (List.length (buf m')) T_default)) Hfn.
    finish_run Hfn.
  - broadcast_round (fun _ : nat => @PSize T 0) Hfn.
    broadcast_round (fun r => @PSize T (List.length (buf (if r =? 0 then m' else init r)))) Hfn.
    broadcast_round (fun r => PVals (if r =? 0 then buf m'
                                     else Resize (buf (init r)) (List.length (buf m')) T_default)) Hfn.
    finish_run Hfn.
Qed.

Lemma ApplyWithLabels_error m' c msg fuel round :
  fn (init 0) = (m', Some (DmlcError (String c msg))) ->
  run no_fault (S (S fuel)) round group
  = Some (map (fun r =>
      (Aborted (String c msg),
       pre r ++
       if r =? 0
       then [EvApply;
             EvColl (RBroadcast (PSize (S (String.length msg))) 0);
             EvColl (RBroadcast (PChars (String c msg)) 0)]
       else [EvColl (RBroadcast (PSize 0) 0);
             EvColl (RBroadcast
                       (PChars (string_resize "" (S (String.length msg)))) 0)]))
      (seq 0 (S n))).
Proof.
  intros Hfn. unfold group, ApplyWithLabels.
  broadcast_round (fun r => @PSize T (if r =? 0 then S (String.length msg) else 0)) Hfn.
  broadcast_round (fun r => @PChars T (if r =? 0 then String c msg
                                  else string_resize "" (S (String.length msg)))) Hfn.
  finish_run Hfn.
Qed.

Lemma ApplyWithLabels_escapes m' what fuel round :
  fn (init 0) = (m', Some (OtherException what)) ->
  run no_fault fuel round group
  = Some (map (fun r =>
      if r =? 0 then (Threw (OtherException what), pre r ++ [EvApply])
      else (Hung, pre r ++ [EvColl (RBroadcast (PSize 0) 0)])) (seq 0 (S n))).
Proof.
  intros Hfn. unfold group, ApplyWithLabels.
  rewrite run_left with (gone := 0);
    [ f_equal; apply map_ext_in; by_rank Hfn | lia | cbn; now rewrite Hfn ].
Qed.

Lemma ApplyWithLabels_run m' e fuel round :
  fn (init 0) = (m', e) ->
  run no_fault (S (S (S fuel))) round group
  = Some (map (fun r =>
      (fst (apply_outcome T_default init m' e r),
       pre r ++ snd (apply_outcome T_default init m' e r))) (seq 0 (S n))).
Proof.
  intros Hfn. destruct e as [[[|c msg]|what]|].
  - rewrite (ApplyWithLabels_quiet _ _ Hfn) by now right.
    apply f_equal, map_ext_in. intros r _. cbn. now destruct r.
  - rewrite (ApplyWithLabels_error _ _ Hfn).
    apply f_equal, map_ext_in. intros r _. cbn. now destruct r.
  - rewrite (ApplyWithLabels_escapes _ _ Hfn).
    apply f_equal, map_ext_in. intros r _. cbn. now destruct r.
  - rewrite (ApplyWithLabels_quiet _ _ Hfn) by now left.
    apply f_equal, map_ext_in. intros r _. cbn. now destruct r.
Qed.

(** Outside vertical federated learning every rank calls [fn] itself. *)
Lemma ApplyWithLabels_local (flt : faults) info fuel round world :
  IsVerticalFederated info = false ->
  run flt fuel round
      (map (fun r => advance (ApplyWithLabels T_default r info fn (init r)) (pre r))
           (seq 0 world))
  = Some (map (fun r =>
      (match fn (init r) with
       | (m', None) => Returned m'
       | (_, Some e) => Threw e
       end, pre r ++ [EvApply])) (seq 0 world)).
Proof.
  intros Hinfo. unfold ApplyWithLabels. rewrite Hinfo.
  rewrite run_done.
  - f_equal. apply map_ext_in. intros r _. cbn.
    destruct (fn (init r)) as [m' [e|]]; reflexivity.
  - intros r _. cbn. destruct (fn (init r)) as [m' [e|]]; reflexivity.
Qed.

End ApplyFacts.

Section RawFacts.
Variable T : Type.
Context `{Reducible T}.
Variable Env : Type.
Variable fn : callable (store Env (list Byte.byte)).
Variable init : nat -> store Env (list Byte.byte).
Variable size : nat.
Variable n : nat.
Variable pre : nat -> list (event T).

Let group : list (worker T (store Env (list Byte.byte))) :=
  map (fun r => advance (ApplyWithLabels_raw r VerticalFederated size fn (init r))
                        (pre r))
      (seq 0 (S n)).

Lemma ApplyWithLabels_raw_quiet m' e fuel round :
  fn (init 0) = (m', e) ->
  e = None \/ e = Some (DmlcError "") ->
  size <= List.length (buf m') ->
  (forall r, r < S n -> size <= List.length (buf (init r))) ->
  run no_fault (S (S fuel)) round group
  = Some (map (fun r =>
      (Returned (set_buf (if r =? 0 then m' else init r)
                         (firstn size (buf m')
                          ++ skipn size (buf (if r =? 0 then m' else init r)))),
       pre r ++
       if r =? 0
       then [EvApply; EvColl (RBroadcast (PSize 0) 0);
             EvColl (RBroadcast (PBytes (firstn size (buf m'))) 0)]
       else [EvColl (RBroadcast (PSize 0) 0);
             EvColl (RBroadcast (PBytes (firstn size (buf (init r)))) 0)]))
      (seq 0 (S n))).
Proof.
  intros Hfn He Hlead Hall.
  assert (Hshape : forall r, r < S n ->
            List.length (firstn size (buf (init r)))
            = List.length (firstn size (buf m'))).
  { intros r Hr. rewrite !length_firstn. specialize (Hall r Hr). lia. }
  destruct He as [-> | ->]; unfold group, ApplyWithLabels_raw.
  - broadcast_round (fun _ : nat => @PSize T 0) Hfn.
    broadcast_round (fun r => @PBytes T (firstn size (buf (if r =? 0 then m' else init r)))) Hfn.
    + finish_run Hfn.
    + rewrite Hshape by assumption. apply Nat.eqb_refl.
  - broadcast_round (fun _ : nat => @PSize T 0) Hfn.
    broadcast_round (fun r => @PBytes T (firstn size (buf (if r =? 0 then m' else init r)))) Hfn.
    + finish_run Hfn.
    + rewrite Hshape by assumption. apply Nat.eqb_refl.
Qed.

Lemma ApplyWithLabels_raw_error m' c msg fuel round :
  fn (init 0) = (m', Some (DmlcError (String c msg))) ->
  run no_fault (S (S fuel)) round group
  = Some (map (fun r =>
      (Aborted (String c msg),
       pre r ++
       if r =? 0
       then [EvApply;
             EvColl (RBroadcast (PSize (S (String.length msg))) 0);
             EvColl (RBroadcast (PChars (String c msg)) 0)]
       else [EvColl (RBroadcast (PSize 0) 0);
             EvColl (RBroadcast
                       (PChars (string_resize "" (S (String.length msg)))) 0)]))
      (seq 0 (S n))).
Proof.
  intros Hfn. unfold group, ApplyWithLabels_raw.
  broadcast_round (fun r => @PSize T (if r =? 0 then S (String.length msg) else 0)) Hfn.
  broadcast_round (fun r => @PChars T (if r =? 0 then String c msg
                                  else string_resize "" (S (String.length msg)))) Hfn.
  finish_run Hfn.
Qed.

Lemma ApplyWithLabels_raw_local (flt : faults) info fuel round world :
  IsVerticalFederated info = false ->
  run flt fuel round
      (map (fun r => advance (ApplyWithLabels_raw r info size fn (init r)) (pre r))
           (seq 0 world))
  = Some (map (fun r =>
      (match fn (init r) with
       | (m', None) => Returned m'
       | (_, Some e) => Threw e
       end, pre r ++ [EvApply])) (seq 0 world)).
Proof.
  intros Hinfo. unfold ApplyWithLabels_raw. rewrite Hinfo.
  rewrite run_done.
  - f_equal. apply map_ext_in. intros r _. cbn.
    destruct (fn (init r)) as [m' [e|]]; reflexivity.
  - intros r _. cbn. destruct (fn (init r)) as [m' [e|]]; reflexivity.
Qed.

End RawFacts.

Section GradientFacts.
Variable EncryptGradient : list float -> list Byte.byte.
Variable NoFederated : string.
Variable Env : Type.
Variable grad_fn : callable (store Env (list GradientPair)).
Variable init : nat -> store Env (list GradientPair).
Variable n : nat.
Variable pre : nat -> list (event GradientPair).

Let group (use_federated is_encrypted : bool) (info : MetaInfo)
  : list (worker GradientPair (store Env (list GradientPair))) :=
  map (fun r => advance (BroadcastGradient EncryptGradient NoFederated
                           use_federated is_encrypted r info grad_fn (init r))
                        (pre r))
      (seq 0 (S n)).

Lemma BroadcastGradient_handshake m1 fuel round :
  grad_fn (init 0) = (m1, None) ->
  run no_fault (S (S fuel)) round (group true true VerticalFederated)
  = run no_fault fuel (S (S round))
      (map (fun r => advance (ApplyWithLabels zero_gpair r VerticalFederated
                                grad_fn (zeroed init m1 r))
                             (pre r ++ handshake EncryptGradient m1 r))
           (seq 0 (S n))).
Proof.
  intros Hfn. unfold group, BroadcastGradient.
  broadcast_round (fun r => @PSize GradientPair
                     (if r =? 0
                      then List.length (EncryptGradient (as_floats (buf m1)))
                      else 0)) Hfn.
  broadcast_round (fun r => @PBytes GradientPair
                     (if r =? 0 then EncryptGradient (as_floats (buf m1))
                      else Resize [] (List.length (EncryptGradient (as_floats (buf m1))))
                                  Byte.x00)) Hfn.
  f_equal. apply map_ext_in. by_rank Hfn.
Qed.
End GradientFacts.

(** ** Reductions *)

Section ReductionFacts.
Variable T : Type.
Context `{Reducible T}.

Lemma reduce_singletons (op : Op) (v : nat -> T) :
  forall l a,
    fold_left (reduce_two op) (map (fun r => [v r]) l) [a]
    = [fold_left (fun acc r => reduce op acc (v r)) l a].
Proof.
  induction l as [|r l IH]; intros a; simpl; [reflexivity|].
  unfold reduce_two at 2. simpl. apply IH.
Qed.

Lemma reduce_pairs (op : Op) (x y : nat -> T) :
  forall l a b,
    fold_left (reduce_two op) (map (fun r => [x r; y r]) l) [a; b]
    = [fold_left (fun acc r => reduce op acc (x r)) l a;
       fold_left (fun acc r => reduce op acc (y r)) l b].
Proof.
  induction l as [|r l IH]; intros a b; simpl; [reflexivity|].
  unfold reduce_two at 2. simpl. apply IH.
Qed.

Lemma reduce_all_singletons (op : Op) (v : nat -> T) (n : nat) :
  reduce_all op (map (fun r => [v r]) (seq 0 (S n))) = [fold_ranks op v n].
Proof. apply reduce_singletons. Qed.

Lemma reduce_all_pairs (op : Op) (x y : nat -> T) (n : nat) :
  reduce_all op (map (fun r => [x r; y r]) (seq 0 (S n)))
  = [fold_ranks op x n; fold_ranks op y n].
Proof. apply reduce_pairs. Qed.

Variable flt : faults.
Variable n : nat.

Lemma GlobalMax_reduces (v : nat -> T) :
  execute flt (S n) (fun r => GlobalMax RowSplit (v r))
  = Some (map (fun r =>
      (match flt 0 r with
       | Some m => Aborted m
       | None => Returned (fold_ranks kMax v n)
       end, [EvColl (RAllreduce [v r] kMax)])) (seq 0 (S n))).
Proof.
  unfold execute, spmd.
  rewrite run_allreduce_round with (v := fun r => [v r]) (op := kMax);
    [ | reflexivity | reflexivity ].
  rewrite reduce_all_singletons.
  rewrite run_done.
  - f_equal. apply map_ext_in. intros r _. cbn.
    destruct (flt 0 r); reflexivity.
  - intros r _. cbn. destruct (flt 0 r); reflexivity.
Qed.

Lemma GlobalSum_reduces (values : nat -> list T) :
  (forall r, r < S n -> List.length (values r) = List.length (values 0)) ->
  execute flt (S n) (fun r => GlobalSum RowSplit (values r))
  = Some (map (fun r =>
      (Returned (match flt 0 r with
                 | Some m => (Fail m, values r)
                 | None => (Success, reduce_all kSum (map values (seq 0 (S n))))
                 end),
       [EvColl (RAllreduce (values r) kSum)])) (seq 0 (S n))).
Proof.
  intros Hlen. unfold execute, spmd.
  rewrite run_allreduce_round with (v := values) (op := kSum);
    [ | reflexivity | exact Hlen ].
  rewrite run_done.
  - f_equal. apply map_ext_in. intros r _. cbn.
    destruct (flt 0 r); reflexivity.
  - intros r _. cbn. destruct (flt 0 r); reflexivity.
Qed.

Context `{Arithmetic T}.

Lemma GlobalRatio_reduces (x y : nat -> T) :
  execute flt (S n) (fun r => GlobalRatio RowSplit (x r) (y r))
  = Some (map (fun r =>
      (match flt 0 r with
       | Some m => Aborted m
       | None =>
           Returned (if le_zero (fold_ranks kSum y n) then quiet_NaN
                     else divide (fold_ranks kSum x n) (fold_ranks kSum y n))
       end, [EvColl (RAllreduce [x r; y r] kSum)])) (seq 0 (S n))).
Proof.
  unfold execute, spmd.
  rewrite run_allreduce_round with (v := fun r => [x r; y r]) (op := kSum);
    [ | reflexivity | reflexivity ].
  rewrite reduce_all_pairs.
  rewrite run_done.
  - f_equal. apply map_ext_in. intros r _. cbn.
    destruct (flt 0 r); [reflexivity|]. cbn.
    destruct (le_zero (fold_ranks kSum y n)); reflexivity.
  - intros r _. cbn. destruct (flt 0 r); [reflexivity|]. cbn.
    destruct (le_zero (fold_ranks kSum y n)); reflexivity.
Qed.

(** Without a row split nothing is sent. *)
Lemma GlobalMax_local info (v : nat -> T) world :
  IsRowSplit info = false ->
  execute flt world (fun r => GlobalMax info (v r))
  = Some (map (fun r => (Returned (v r), [])) (seq 0 world)).
Proof.
  intros Hinfo. unfold execute, spmd, GlobalMax. rewrite Hinfo.
  now rewrite run_done.
Qed.

Lemma GlobalSum_local info (values : nat -> list T) world :
  IsRowSplit info = false ->
  execute flt world (fun r => GlobalSum info (values r))
  = Some (map (fun r => (Returned (Success, values r), [])) (seq 0 world)).
Proof.
  intros Hinfo. unfold execute, spmd, GlobalSum. rewrite Hinfo.
  now rewrite run_done.
Qed.

Lemma GlobalRatio_local info (x y : nat -> T) world :
  IsRowSplit info = false ->
  execute flt world (fun r => GlobalRatio info (x r) (y r))
  = Some (map (fun r =>
      (Returned (if le_zero (y r) then quiet_NaN else divide (x r) (y r)),
       [])) (seq 0 world)).
Proof.
  intros Hinfo. unfold execute, spmd, GlobalRatio, GlobalSum. rewrite Hinfo.
  rewrite run_done.
  - f_equal. apply map_ext_in. intros r _. cbn.
    destruct (le_zero (y r)); reflexivity.
  - intros r _. cbn. destruct (le_zero (y r)); reflexivity.
Qed.

End ReductionFacts.

(** Rows reduced elementwise. *)
Section SumFacts.
Variable T : Type.
Context `{Reducible T}.
Variable d : T.

Lemma reduce_two_length (op : Op) (acc v : list T) :
  List.length v = List.length acc ->
  List.length (reduce_two op acc v) = List.length acc.
Proof.
  intros Hlen. unfold reduce_two.
  rewrite length_map, length_combine. lia.
Qed.

Lemma reduce_two_nth (op : Op) :
  forall (acc v : list T) (i : nat),
    i < List.length acc ->
    List.length v = List.length acc ->
    nth i (reduce_two op acc v) d = reduce op (nth i acc d) (nth i v d).
Proof.
  unfold reduce_two.
  induction acc as [|a acc IH]; intros v i Hi Hlen; cbn in *; [lia|].
  destruct v as [|b v]; [discriminate Hlen|].
  destruct i as [|i]; cbn; [reflexivity|].
  apply IH; [lia|]. cbn in Hlen. lia.
Qed.

Lemma reduce_rows (op : Op) (values : nat -> list T) :
  forall (l : list nat) (acc : list T),
    (forall r, In r l -> List.length (values r) = List.length acc) ->
    List.length (fold_left (reduce_two op) (map values l) acc)
    = List.length acc
    /\ forall i, i < List.length acc ->
         nth i (fold_left (reduce_two op) (map values l) acc) d
         = fold_left (fun a r => reduce op a (nth i (values r) d)) l
                     (nth i acc d).
Proof.
  induction l as [|x l IH]; intros acc Hall; cbn.
  - split; reflexivity.
  - assert (Hx : List.length (values x) = List.length acc)
      by (apply Hall; now left).
    destruct (IH (reduce_two op acc (values x))) as [Hlen Hnth].
    { intros r Hr. rewrite reduce_two_length by exact Hx.
      apply Hall. now right. }
    rewrite reduce_two_length in Hlen by exact Hx.
    split; [exact Hlen|].
    intros i Hi. rewrite Hnth by (now rewrite reduce_two_length).
    now rewrite reduce_two_nth.
Qed.

End SumFacts.

(** ** Conditional reductions: main results *)

(** C4.  [GlobalMax], [GlobalSum] and [GlobalRatio] reduce exactly when the
    data is split by rows.  Without a row split, whatever the transport
    does, every rank gets back what it passed in (for [GlobalRatio]: the
    ratio of its own two inputs) and its log is empty: no collective call is
    issued.  With a row split the collective calls of every rank are exactly
    one [Allreduce], with [kMax] resp. [kSum], on the rank's own input; a
    rank whose call succeeds gets the combination over all ranks: the
    maximum, the elementwise sum, the ratio of the two sums; a rank whose
    call fails ends [GlobalMax] and [GlobalRatio] in the fatal error and
    gets the failure back from [GlobalSum]. *)
Theorem reductions_exactly_when_row_split
  (T : Type) `{Reducible T} `{Arithmetic T} (flt : faults) (n : nat)
  (info : MetaInfo) (v x y : nat -> T) (values : nat -> list T) :
  (IsRowSplit info = false ->
     execute flt (S n) (fun r => GlobalMax info (v r))
     = Some (map (fun r => (Returned (v r), [])) (seq 0 (S n)))
     /\ execute flt (S n) (fun r => GlobalSum info (values r))
        = Some (map (fun r => (Returned (Success, values r), [])) (seq 0 (S n)))
     /\ execute flt (S n) (fun r => GlobalRatio info (x r) (y r))
        = Some (map (fun r =>
                  (Returned (if le_zero (y r) then quiet_NaN
                             else divide (x r) (y r)), [])) (seq 0 (S n))))
  /\ (IsRowSplit info = true ->
        call_logs (execute flt (S n) (fun r => GlobalMax info (v r)))
        = Some (map (fun _ => [CallAllreduce kMax]) (seq 0 (S n)))
        /\ ((forall r, r < S n ->
               List.length (values r) = List.length (values 0)) ->
            call_logs (execute flt (S n) (fun r => GlobalSum info (values r)))
            = Some (map (fun _ => [CallAllreduce kSum]) (seq 0 (S n))))
        /\ call_logs (execute flt (S n) (fun r => GlobalRatio info (x r) (y r)))
           = Some (map (fun _ => [CallAllreduce kSum]) (seq 0 (S n))))
  /\ (IsRowSplit info = true ->
      forall r, r < S n -> flt 0 r = None ->
        outcome_at (execute flt (S n) (fun r => GlobalMax info (v r))) r
        = Some (Returned (fold_ranks kMax v n),
                [EvColl (RAllreduce [v r] kMax)])
        /\ outcome_at (execute flt (S n)
                         (fun r => GlobalRatio info (x r) (y r))) r
           = Some (Returned
                     (if le_zero (fold_ranks kSum y n) then quiet_NaN
                      else divide (fold_ranks kSum x n) (fold_ranks kSum y n)),
                   [EvColl (RAllreduce [x r; y r] kSum)])
        /\ ((forall k, k < S n ->
               List.length (values k) = List.length (values 0)) ->
            exists total,
              outcome_at (execute flt (S n)
                            (fun r => GlobalSum info (values r))) r
              = Some (Returned (Success, total),
                      [EvColl (RAllreduce (values r) kSum)])
              /\ List.length total = List.length (values 0)
              /\ forall (d : T) (i : nat),
                   i < List.length (values 0) ->
                   nth i total d
                   = fold_ranks kSum (fun k => nth i (values k) d) n))
  /\ (IsRowSplit info = true ->
      forall r msg, r < S n -> flt 0 r = Some msg ->
        outcome_at (execute flt (S n) (fun r => GlobalMax info (v r))) r
        = Some (Aborted msg, [EvColl (RAllreduce [v r] kMax)])
        /\ outcome_at (execute flt (S n)
                         (fun r => GlobalRatio info (x r) (y r))) r
           = Some (Aborted msg, [EvColl (RAllreduce [x r; y r] kSum)])
        /\ ((forall k, k < S n ->
               List.length (values k) = List.length (values 0)) ->
            exists view,
              outcome_at (execute flt (S n)
                            (fun r => GlobalSum info (values r))) r
              = Some (Returned (Fail msg, view),
                      [EvColl (RAllreduce (values r) kSum)]))).
Proof.
  split; [|split; [|split]].
  - intros Hinfo. repeat split.
    + now apply GlobalMax_local.
    + now apply GlobalSum_local.
    + now apply GlobalRatio_local.
  - intros Hinfo. destruct info; try discriminate Hinfo. repeat split.
    + rewrite GlobalMax_reduces. cbn. now rewrite map_map.
    + intros Hlen. rewrite GlobalSum_reduces by exact Hlen.
      cbn. now rewrite map_map.
    + rewrite GlobalRatio_reduces. cbn. now rewrite map_map.
  - intros Hinfo r Hr Hflt. destruct info; try discriminate Hinfo.
    split; [|split].
    + rewrite GlobalMax_reduces, outcome_at_map by exact Hr. now rewrite Hflt.
    + rewrite GlobalRatio_reduces, outcome_at_map by exact Hr.
      now rewrite Hflt.
    + intros Hlen.
      assert (Hin : forall k, In k (seq 1 n) ->
                List.length (values k) = List.length (values 0)).
      { intros k Hk. apply in_seq in Hk. apply Hlen. lia. }
      exists (reduce_all kSum (map values (seq 0 (S n)))). split; [|split].
      * rewrite GlobalSum_reduces by exact Hlen.
        rewrite outcome_at_map by exact Hr. now rewrite Hflt.
      * exact (proj1 (@reduce_rows T _ (v 0) kSum values (seq 1 n)
                        (values 0) Hin)).
      * intros d i Hi.
        exact (proj2 (@reduce_rows T _ d kSum values (seq 1 n) (values 0) Hin)
                     i Hi).
  - intros Hinfo r msg Hr Hflt. destruct info; try discriminate Hinfo.
    split; [|split].
    + rewrite GlobalMax_reduces, outcome_at_map by exact Hr. now rewrite Hflt.
    + rewrite GlobalRatio_reduces, outcome_at_map by exact Hr.
      now rewrite Hflt.
    + intros Hlen. exists (values r).
      rewrite GlobalSum_reduces by exact Hlen.
      rewrite outcome_at_map by exact Hr. now rewrite Hflt.
Qed.

Lemma reductions_exactly_when_row_split_witness :
  (execute no_fault 2 (fun r => GlobalMax VerticalPlain (Z.of_nat r))
   = Some [(Returned 0%Z, []); (Returned 1%Z, [])])
  /\ call_logs (execute no_fault 2 (fun r => GlobalMax RowSplit (Z.of_nat r)))
     = Some [[CallAllreduce kMax]; [CallAllreduce kMax]]
  /\ outcome_at (execute no_fault 2 (fun r => GlobalMax RowSplit (Z.of_nat r))) 0
     = Some (Returned 1%Z, [EvColl (RAllreduce [0%Z] kMax)])
  /\ outcome_at (execute no_fault 2
                   (fun r => GlobalRatio RowSplit (Z.of_nat r + 5)%Z 2%Z)) 0
     = Some (Returned 2%Z, [EvColl (RAllreduce [5%Z; 2%Z] kSum)])
  /\ outcome_at (execute (link_down 0) 2
                   (fun r => GlobalMax RowSplit (Z.of_nat r))) 1
     = Some (Aborted "link down", [EvColl (RAllreduce [1%Z] kMax)]).
Proof.
  pose proof (@reductions_exactly_when_row_split Z _ _ no_fault 1 VerticalPlain
                Z.of_nat Z.of_nat Z.of_nat (fun _ => [])) as [Hlocal _].
  pose proof (@reductions_exactly_when_row_split Z _ _ no_fault 1 RowSplit
                Z.of_nat (fun r => (Z.of_nat r + 5)%Z) (fun _ => 2%Z)
                (fun _ => [])) as [_ [Hrow [Hval _]]].
  pose proof (@reductions_exactly_when_row_split Z _ _ (link_down 0) 1 RowSplit
                Z.of_nat Z.of_nat Z.of_nat (fun _ => [])) as [_ [_ [_ Hfail]]].
  assert (H0 : 0 < 2) by lia. assert (H1 : 1 < 2) by lia.
  split; [|split; [|split; [|split]]].
  - exact (proj1 (Hlocal eq_refl)).
  - exact (proj1 (Hrow eq_refl)).
  - exact (proj1 (Hval eq_refl 0 H0 eq_refl)).
  - exact (proj1 (proj2 (Hval eq_refl 0 H0 eq_refl))).
  - exact (proj1 (Hfail eq_refl 1 "link down" H1 eq_refl)).
Defined.

(** C3.  [GlobalRatio] on [world = S n] ranks without transport faults: the
    pair (dividend, divisor) is summed over the ranks when the data is split
    by rows and left as it is otherwise; the combined divisor [Y] decides:
    [quiet_NaN] when [Y <= 0], the quotient [X / Y] otherwise.  On [double],
    for one worker in any mode and for any number of workers without a row
    split: GlobalRatio(5.0, 0.0) = NaN, GlobalRatio(5.0, -3.0) = NaN and
    GlobalRatio(6.0, 2.0) = 3.0. *)
Theorem GlobalRatio_nan_or_quotient :
  (forall (T : Type) `{Reducible T} `{Arithmetic T} (info : MetaInfo)
          (n : nat) (x y : nat -> T) (r : nat),
      r < S n ->
      let X := if IsRowSplit info then fold_ranks kSum x n else x r in
      let Y := if IsRowSplit info then fold_ranks kSum y n else y r in
      outcome_at (execute no_fault (S n)
                    (fun r => GlobalRatio info (x r) (y r))) r
      = Some (Returned (if le_zero Y then quiet_NaN else divide X Y),
              if IsRowSplit info
              then [EvColl (RAllreduce [x r; y r] kSum)] else []))
  /\ (forall info : MetaInfo,
        returns_of (execute no_fault 1
                      (fun _ => GlobalRatio info 5%float 0%float))
        = Some [Returned PrimFloat.nan]
        /\ returns_of (execute no_fault 1
                         (fun _ => GlobalRatio info 5%float (-3)%float))
           = Some [Returned PrimFloat.nan]
        /\ returns_of (execute no_fault 1
                         (fun _ => GlobalRatio info 6%float 2%float))
           = Some [Returned 3%float])
  /\ (forall (info : MetaInfo) (world : nat),
        IsRowSplit info = false ->
        returns_of (execute no_fault world
                      (fun _ => GlobalRatio info 5%float 0%float))
        = Some (repeat (Returned PrimFloat.nan) world)
        /\ returns_of (execute no_fault world
                         (fun _ => GlobalRatio info 5%float (-3)%float))
           = Some (repeat (Returned PrimFloat.nan) world)
        /\ returns_of (execute no_fault world
                         (fun _ => GlobalRatio info 6%float 2%float))
           = Some (repeat (Returned 3%float) world)).
Proof.
  assert (Hrep : forall (X : Type) (a : X) (k : nat),
             map (fun _ : nat => a) (seq 0 k) = repeat a k).
  { intros X a k. generalize 0. induction k as [|k IH]; intros s; simpl;
      [reflexivity|now rewrite IH]. }
  split; [|split].
  - intros T HR HA info n x y r Hr X Y. subst X Y.
    destruct (IsRowSplit info) eqn:Hinfo.
    + destruct info; try discriminate Hinfo.
      rewrite GlobalRatio_reduces.
      now rewrite outcome_at_map.
    + rewrite GlobalRatio_local by exact Hinfo.
      now rewrite outcome_at_map.
  - intros info. destruct info; repeat split; reflexivity.
  - intros info world Hinfo. repeat split;
      rewrite GlobalRatio_local by exact Hinfo;
      cbn; rewrite map_map; cbn; now rewrite Hrep.
Qed.

Lemma GlobalRatio_nan_or_quotient_witness :
  outcome_at (execute no_fault 3
                (fun r => GlobalRatio RowSplit
                            (nth r [1; 2; 3]%float 0%float)
                            (nth r [1; 1; 2]%float 0%float))) 1
  = Some (Returned 1.5%float,
          [EvColl (RAllreduce [2%float; 1%float] kSum)])
  /\ returns_of (execute no_fault 4
                   (fun _ => GlobalRatio VerticalPlain 5%float (-3)%float))
     = Some (repeat (Returned PrimFloat.nan) 4).
Proof.
  destruct GlobalRatio_nan_or_quotient as [Hgen [_ Hvert]].
  split.
  - assert (Hlt : 1 < 3) by lia.
    exact (Hgen float _ _ RowSplit 2
             (fun r => nth r [1; 2; 3]%float 0%float)
             (fun r => nth r [1; 1; 2]%float 0%float) 1 Hlt).
  - exact (proj1 (proj2 (Hvert VerticalPlain 4 eq_refl))).
Defined.

(** C10.  On an integral type the value [GlobalRatio] returns for a
    combined divisor [<= 0] is [quiet_NaN()], which is 0: without a row split
    on any number of workers, and for a single worker in any mode, a divisor
    [<= 0] yields 0 whatever the dividend is. *)
Theorem GlobalRatio_integral_gives_zero :
  (forall (flt : faults) (info : MetaInfo) (world : nat) (x y : nat -> Z),
      IsRowSplit info = false ->
      (forall r, r < world -> (y r <= 0)%Z) ->
      returns_of (execute flt world (fun r => GlobalRatio info (x r) (y r)))
      = Some (repeat (Returned 0%Z) world))
  /\ (forall (info : MetaInfo) (x y : Z),
        (y <= 0)%Z ->
        returns_of (execute no_fault 1 (fun _ => GlobalRatio info x y))
        = Some [Returned 0%Z]).
Proof.
  split.
  - intros flt info world x y Hinfo Hy.
    rewrite GlobalRatio_local by exact Hinfo.
    cbn. rewrite map_map. cbn. f_equal.
    assert (Hgen : forall s k,
               (forall r, In r (seq s k) -> (y r <= 0)%Z) ->
               map (fun r => Returned (if (y r <=? 0)%Z then 0%Z
                                       else wrap32 (x r ÷ y r)))
                   (seq s k)
               = repeat (Returned 0%Z) k).
    { intros s k. revert s. induction k as [|k IH]; intros s Hin; simpl;
        [reflexivity|].
      rewrite IH by (intros r Hr; apply Hin; now right).
      assert (Hs : (y s <= 0)%Z) by (apply Hin; now left).
      apply Z.leb_le in Hs. now rewrite Hs. }
    apply Hgen. intros r Hr. apply Hy. apply in_seq in Hr. lia.
  - intros info x y Hy. apply Z.leb_le in Hy.
    destruct info.
    + rewrite GlobalRatio_reduces. cbn. unfold fold_ranks. cbn.
      now rewrite Hy.
    + rewrite GlobalRatio_local by reflexivity. cbn. now rewrite Hy.
    + rewrite GlobalRatio_local by reflexivity. cbn. now rewrite Hy.
Qed.

Lemma GlobalRatio_integral_gives_zero_witness :
  returns_of (execute no_fault 3
                (fun r => GlobalRatio VerticalPlain (Z.of_nat r + 7)%Z
                                      (- Z.of_nat r)%Z))
  = Some [Returned 0%Z; Returned 0%Z; Returned 0%Z]
  /\ returns_of (execute no_fault 1 (fun _ => GlobalRatio RowSplit 5%Z (-3)%Z))
     = Some [Returned 0%Z].
Proof.
  destruct GlobalRatio_integral_gives_zero as [Hvert Hone].
  split.
  - apply (Hvert no_fault VerticalPlain 3
             (fun r => (Z.of_nat r + 7)%Z) (fun r => (- Z.of_nat r)%Z) eq_refl).
    intros r _. lia.
  - apply (Hone RowSplit 5%Z (-3)%Z). lia.
Defined.

(** ** Counting in logs *)

Lemma applications_app {T : Type} (a b : list (event T)) :
  applications (a ++ b) = applications a + applications b.
Proof. unfold applications. now rewrite filter_app, length_app. Qed.

Lemma syncs_app {T : Type} (a b : list (event T)) :
  syncs (a ++ b) = syncs a + syncs b.
Proof. unfold syncs. now rewrite filter_app, length_app. Qed.

Lemma calls_app {T : Type} (a b : list (event T)) :
  calls (a ++ b) = calls a ++ calls b.
Proof. unfold calls. apply flat_map_app. Qed.

Lemma apply_outcome_applications {T Env : Type} (d : T)
  (init : nat -> store Env (list T)) m' e r :
  applications (snd (apply_outcome d init m' e r)) = if r =? 0 then 1 else 0.
Proof. destruct e as [[[|c msg]|what]|]; destruct r; reflexivity. Qed.

Lemma apply_outcome_syncs {T Env : Type} (d : T)
  (init : nat -> store Env (list T)) m' e r :
  syncs (snd (apply_outcome d init m' e r)) = 0.
Proof. destruct e as [[[|c msg]|what]|]; destruct r; reflexivity. Qed.

(** ** Gradient broadcast: the encrypted branch and its neighbours *)

Section GradientRuns.

Variable EncryptGradient : list float -> list Byte.byte.
Variable NoFederated : string.
Variable Env : Type.
Variable grad_fn : callable (store Env (list GradientPair)).
Variable init : nat -> store Env (list GradientPair).
Variable n : nat.

Let encrypted_call (r : nat) :=
  BroadcastGradient EncryptGradient NoFederated true true r VerticalFederated
                    grad_fn (init r).

Lemma handshake_applications (m1 : store Env (list GradientPair)) r :
  applications (handshake EncryptGradient m1 r) = if r =? 0 then 1 else 0.
Proof. destruct r; reflexivity. Qed.

Lemma handshake_syncs (m1 : store Env (list GradientPair)) r :
  syncs (handshake EncryptGradient m1 r) = 1.
Proof. destruct r; reflexivity. Qed.

(** The leader's first call of [grad_fn] is not guarded: what it throws
    leaves [BroadcastGradient] before anything is sent. *)
Lemma BroadcastGradient_first_call_throws m1 e :
  grad_fn (init 0) = (m1, Some e) ->
  execute no_fault (S n) encrypted_call
  = Some (map (fun r =>
      if r =? 0 then (Threw e, [EvApply])
      else (Hung, [EvColl (RBroadcast (PSize 0) 0)])) (seq 0 (S n))).
Proof.
  intros Hfn. unfold execute, spmd, encrypted_call, BroadcastGradient.
  rewrite run_left with (gone := 0);
    [ f_equal; apply map_ext_in; by_rank Hfn | lia | cbn; now rewrite Hfn ].
Qed.

Lemma BroadcastGradient_encrypted_run m1 m2 e2 :
  grad_fn (init 0) = (m1, None) ->
  grad_fn (zeroed init m1 0) = (m2, e2) ->
  execute no_fault (S n) encrypted_call
  = Some (map (fun r =>
      (fst (apply_outcome zero_gpair (zeroed init m1) m2 e2 r),
       handshake EncryptGradient m1 r
       ++ snd (apply_outcome zero_gpair (zeroed init m1) m2 e2 r)))
      (seq 0 (S n))).
Proof.
  intros Hfirst Hsecond. unfold execute, spmd, encrypted_call.
  rewrite (BroadcastGradient_handshake EncryptGradient NoFederated grad_fn
             init n (fun _ => []) (m1 := m1)) by exact Hfirst.
  now rewrite (ApplyWithLabels_run zero_gpair grad_fn (zeroed init m1) n
                 (fun r => [] ++ handshake EncryptGradient m1 r)
                 (m' := m2) (e := e2)) by exact Hsecond.
Qed.

End GradientRuns.

(** Outside the encrypted vertical federated case [BroadcastGradient] is
    [ApplyWithLabels]. *)
Lemma BroadcastGradient_delegates (EncryptGradient : list float -> list Byte.byte)
  (NoFederated : string) (Env : Type) (use_federated is_encrypted : bool)
  (rank : nat) (info : MetaInfo)
  (grad_fn : callable (store Env (list GradientPair)))
  (m : store Env (list GradientPair)) :
  IsVerticalFederated info && is_encrypted = false ->
  BroadcastGradient EncryptGradient NoFederated use_federated is_encrypted
                    rank info grad_fn m
  = ApplyWithLabels zero_gpair rank info grad_fn m.
Proof. intros Hmode. unfold BroadcastGradient. now rewrite Hmode. Qed.

(** C6.  Vertical federated learning with encryption asked for, in a build
    without federated support: on every rank the call ends in the fatal
    error [NoFederated] with an empty log, whatever the transport would do:
    no collective call is issued and [grad_fn] is never called, so nothing
    of the plaintext path runs. *)
Theorem BroadcastGradient_without_federated_support
  (EncryptGradient : list float -> list Byte.byte) (NoFederated : string)
  (Env : Type) (grad_fn : callable (store Env (list GradientPair)))
  (init : nat -> store Env (list GradientPair)) (flt : faults) (world : nat) :
  execute flt world
    (fun r => BroadcastGradient EncryptGradient NoFederated false true r
                                VerticalFederated grad_fn (init r))
  = Some (map (fun _ => (Aborted NoFederated, [])) (seq 0 world)).
Proof.
  unfold execute, spmd. now rewrite run_done.
Qed.

(** C5.  The encrypted branch, without transport faults and with a leader
    whose first call of [grad_fn] returns.  Every rank first goes through
    the steps [before]: on the leader the gradient is computed and handed
    to [EncryptGradient] as floats (gradient, hessian of each pair in turn),
    the byte length is broadcast, then the payload; a non-leader receives
    the length, sizes a fresh buffer to it and receives the payload; then
    every rank calls [SyncEncryptedGradient] on the payload and overwrites
    its gradient buffer.  What follows on every rank is exactly the run of
    one [ApplyWithLabels] with the same [grad_fn] over the buffers
    [zero_filled]: as long as they were, every pair (0, 0).  Each rank has
    called [SyncEncryptedGradient] exactly once. *)
Theorem BroadcastGradient_encrypted_sequence
  (EncryptGradient : list float -> list Byte.byte) (NoFederated : string)
  (Env : Type) (grad_fn : callable (store Env (list GradientPair)))
  (init : nat -> store Env (list GradientPair)) (n : nat)
  (m1 : store Env (list GradientPair)) :
  grad_fn (init 0) = (m1, None) ->
  let data := flat_map (fun p => [grad_ p; hess_ p]) (buf m1) in
  let encrypted := EncryptGradient data in
  let n_bytes := List.length encrypted in
  let before (r : nat) : list (event GradientPair) :=
    if r =? 0
    then [EvApply; EvEncrypt data;
          EvColl (RBroadcast (PSize n_bytes) 0);
          EvColl (RBroadcast (PBytes encrypted) 0);
          EvSync encrypted; EvFill]
    else [EvColl (RBroadcast (PSize 0) 0);
          EvResize n_bytes;
          EvColl (RBroadcast (PBytes (repeat Byte.x00 n_bytes)) 0);
          EvSync encrypted; EvFill] in
  let zero_filled (r : nat) : store Env (list GradientPair) :=
    {| env := env (if r =? 0 then m1 else init r);
       buf := repeat (MkGradientPair 0%float 0%float)
                     (List.length (buf (if r =? 0 then m1 else init r))) |} in
  exists out,
    execute no_fault (S n)
      (fun r => ApplyWithLabels (MkGradientPair 0%float 0%float) r
                                VerticalFederated grad_fn (zero_filled r))
    = Some out
    /\ execute no_fault (S n)
         (fun r => BroadcastGradient EncryptGradient NoFederated true true r
                                     VerticalFederated grad_fn (init r))
       = Some (prepend_logs before out)
    /\ (forall r res log,
          nth_error (prepend_logs before out) r = Some (res, log) ->
          syncs log = 1).
Proof.
  intros Hfirst data encrypted n_bytes before zero_filled.
  assert (Hbefore : forall r, before r = handshake EncryptGradient m1 r).
  { intros r. subst before n_bytes encrypted data. unfold handshake.
    destruct r; cbn [Nat.eqb]; [reflexivity|].
    now rewrite Resize_nil. }
  destruct (grad_fn (zeroed init m1 0)) as [m2 e2] eqn:Hsecond.
  exists (map (apply_outcome zero_gpair (zeroed init m1) m2 e2) (seq 0 (S n))).
  assert (Hpre : prepend_logs before
                   (map (apply_outcome zero_gpair (zeroed init m1) m2 e2)
                        (seq 0 (S n)))
                 = map (fun r =>
                     (fst (apply_outcome zero_gpair (zeroed init m1) m2 e2 r),
                      handshake EncryptGradient m1 r
                      ++ snd (apply_outcome zero_gpair (zeroed init m1) m2 e2 r)))
                     (seq 0 (S n))).
  { unfold prepend_logs. rewrite imap_from_map.
    apply map_ext. intros r. now rewrite Hbefore. }
  split; [|split].
  - change (execute no_fault (S n)
              (fun r => ApplyWithLabels zero_gpair r VerticalFederated grad_fn
                                        (zeroed init m1 r))
            = Some (map (apply_outcome zero_gpair (zeroed init m1) m2 e2)
                        (seq 0 (S n)))).
    unfold execute, spmd.
    rewrite (ApplyWithLabels_run zero_gpair grad_fn (zeroed init m1) n
               (fun _ => []) (m' := m2) (e := e2)) by exact Hsecond.
    apply f_equal, map_ext_in. intros r _. cbn.
    now destruct (apply_outcome zero_gpair (zeroed init m1) m2 e2 r).
  - rewrite Hpre.
    now apply BroadcastGradient_encrypted_run.
  - intros r res log Hnth. rewrite Hpre in Hnth.
    rewrite nth_error_map in Hnth.
    destruct (nth_error (seq 0 (S n)) r) as [k|]; [|discriminate Hnth].
    cbn in Hnth. injection Hnth as _ <-.
    now rewrite syncs_app, handshake_syncs, apply_outcome_syncs.
Qed.

Lemma BroadcastGradient_encrypted_sequence_witness :
  execute no_fault 2
    (fun r => BroadcastGradient plugin_example "no federated support"
                true true r VerticalFederated gradient_prepending
                (MkStore tt [MkGradientPair
                               (if r =? 0 then 3%float else 7%float) 7%float]))
  = Some
      [(Returned
          (MkStore tt [MkGradientPair 1.5%float 0.25%float;
                       MkGradientPair 0%float 0%float;
                       MkGradientPair 0%float 0%float]),
        [EvApply; EvEncrypt [1.5%float; 0.25%float; 3%float; 7%float];
         EvColl (RBroadcast (PSize 16) 0);
         EvColl (RBroadcast (PBytes (repeat Byte.xff 16)) 0);
         EvSync (repeat Byte.xff 16);
         EvFill;
         EvApply;
         EvColl (RBroadcast (PSize 0) 0);
         EvColl (RBroadcast (PSize 3) 0);
         EvResize 3;
         EvColl (RBroadcast
                   (PVals [MkGradientPair 1.5%float 0.25%float;
                           MkGradientPair 0%float 0%float;
                           MkGradientPair 0%float 0%float]) 0)]);
       (Returned
          (MkStore tt [MkGradientPair 1.5%float 0.25%float;
                       MkGradientPair 0%float 0%float;
                       MkGradientPair 0%float 0%float]),
        [EvColl (RBroadcast (PSize 0) 0);
         EvResize 16;
         EvColl (RBroadcast (PBytes (repeat Byte.x00 16)) 0);
         EvSync (repeat Byte.xff 16);
         EvFill;
         EvColl (RBroadcast (PSize 0) 0);
         EvColl (RBroadcast (PSize 1) 0);
         EvResize 3;
         EvColl (RBroadcast
                   (PVals [MkGradientPair 0%float 0%float;
                           MkGradientPair 0%float 0%float;
                           MkGradientPair 0%float 0%float]) 0)])].
Proof.
  destruct (@BroadcastGradient_encrypted_sequence plugin_example
              "no federated support" unit gradient_prepending
              (fun r => MkStore tt [MkGradientPair
                                      (if r =? 0 then 3%float else 7%float)
                                      7%float]) 1
              (MkStore tt [MkGradientPair 1.5%float 0.25%float;
                           MkGradientPair 3%float 7%float]) eq_refl)
    as [out [Happly [Hrun _]]].
  vm_compute in Happly. injection Happly as <-.
  exact Hrun.
Defined.

(** C9.  The encrypted branch without transport faults.  The leader calls
    [grad_fn] once before encrypting and, when that call returns, once more
    inside the final [ApplyWithLabels]: twice in all (once if the first call
    throws, which ends the leader's [BroadcastGradient]).  No other rank
    ever calls it.  The plugin is given the result of the first call
    ([handshake] is computed from [m1]), while the buffers every rank ends
    up with are those of the second call, made on the zeroed buffer: the
    two agree only for a [grad_fn] that computes the same on repetition. *)
Theorem BroadcastGradient_encrypted_calls_grad_fn_twice
  (EncryptGradient : list float -> list Byte.byte) (NoFederated : string)
  (Env : Type) (grad_fn : callable (store Env (list GradientPair)))
  (init : nat -> store Env (list GradientPair)) (n : nat)
  (m1 : store Env (list GradientPair)) (e1 : option exn) (r : nat) :
  grad_fn (init 0) = (m1, e1) ->
  r < S n ->
  exists res log,
    outcome_at
      (execute no_fault (S n)
         (fun r => BroadcastGradient EncryptGradient NoFederated true true r
                                     VerticalFederated grad_fn (init r))) r
    = Some (res, log)
    /\ applications log
       = (if r =? 0 then match e1 with None => 2 | Some _ => 1 end else 0)
    /\ (e1 = None ->
        exists tail,
          log = handshake EncryptGradient m1 r ++ tail
          /\ applications (handshake EncryptGradient m1 r)
             = (if r =? 0 then 1 else 0)
          /\ applications tail = (if r =? 0 then 1 else 0)
          /\ forall m2, grad_fn (zeroed init m1 0) = (m2, None) ->
                        exists m, res = Returned m /\ buf m = buf m2).
Proof.
  intros Hfirst Hr. destruct e1 as [e|].
  - rewrite (BroadcastGradient_first_call_throws EncryptGradient NoFederated
               grad_fn init n Hfirst).
    rewrite outcome_at_map by exact Hr.
    destruct r as [|r]; cbn [Nat.eqb].
    + exists (Threw e), [EvApply]. repeat split. discriminate.
    + exists Hung, [EvColl (RBroadcast (PSize 0) 0)]. repeat split. discriminate.
  - destruct (grad_fn (zeroed init m1 0)) as [m2 e2] eqn:Hsecond.
    rewrite (BroadcastGradient_encrypted_run EncryptGradient NoFederated
               grad_fn init n Hfirst Hsecond).
    rewrite outcome_at_map by exact Hr.
    eexists. eexists. split; [reflexivity|]. split.
    + rewrite applications_app, handshake_applications,
        apply_outcome_applications.
      now destruct r.
    + intros _. eexists. split; [reflexivity|]. split; [|split].
      * apply handshake_applications.
      * apply apply_outcome_applications.
      * intros m2' Heq. injection Heq as Hm He. subst m2' e2. cbn.
        eexists. split; reflexivity.
Qed.

Lemma BroadcastGradient_encrypted_calls_grad_fn_twice_witness :
  (exists res log,
      outcome_at
        (execute no_fault 2
           (fun r => BroadcastGradient plugin_example "no federated support"
                       true true r VerticalFederated gradient_example
                       (MkStore tt [zero_gpair]))) 0
      = Some (res, log) /\ applications log = 2)
  /\ (exists res log,
        outcome_at
          (execute no_fault 2
             (fun r => BroadcastGradient plugin_example "no federated support"
                         true true r VerticalFederated gradient_example
                         (MkStore tt [zero_gpair]))) 1
        = Some (res, log) /\ applications log = 0).
Proof.
  split.
  - destruct (@BroadcastGradient_encrypted_calls_grad_fn_twice plugin_example
                "no federated support" unit gradient_example
                (fun _ => MkStore tt [zero_gpair]) 1 _ _ 0 eq_refl)
      as [res [log [Hout [Hcount _]]]]; [lia|].
    exists res, log. split; [exact Hout|exact Hcount].
  - destruct (@BroadcastGradient_encrypted_calls_grad_fn_twice plugin_example
                "no federated support" unit gradient_example
                (fun _ => MkStore tt [zero_gpair]) 1 _ _ 1 eq_refl)
      as [res [log [Hout [Hcount _]]]]; [lia|].
    exists res, log. split; [exact Hout|exact Hcount].
Defined.

(** C1.  The encrypted branch on two workers, no transport fault: the
    leader computes the gradient [(1.5, 0.25); (-2, 1)]; the other worker
    came with a zero buffer.  When the call returns the other worker's
    gradient buffer holds the leader's plaintext gradient: the final
    [ApplyWithLabels] broadcast it after the buffers had been zeroed. *)
Theorem BroadcastGradient_encrypted_hands_out_plaintext :
  returns_of
    (execute no_fault 2
       (fun r => BroadcastGradient plugin_example "no federated support"
                   true true r VerticalFederated gradient_example
                   (MkStore tt [zero_gpair; zero_gpair])))
  = Some [Returned (MkStore tt [MkGradientPair 1.5%float 0.25%float;
                                MkGradientPair (-2)%float 1%float]);
          Returned (MkStore tt [MkGradientPair 1.5%float 0.25%float;
                                MkGradientPair (-2)%float 1%float])]
  /\ outcome_at
       (execute no_fault 2
          (fun r => BroadcastGradient plugin_example "no federated support"
                      true true r VerticalFederated gradient_example
                      (MkStore tt [zero_gpair; zero_gpair]))) 1
     = Some (Returned (MkStore tt [MkGradientPair 1.5%float 0.25%float;
                                   MkGradientPair (-2)%float 1%float]),
             [EvColl (RBroadcast (PSize 0) 0);
              EvResize 16;
              EvColl (RBroadcast (PBytes (repeat Byte.x00 16)) 0);
              EvSync (repeat Byte.xff 16);
              EvFill;
              EvColl (RBroadcast (PSize 0) 0);
              EvColl (RBroadcast (PSize 2) 0);
              EvResize 2;
              EvColl (RBroadcast (PVals [zero_gpair; zero_gpair]) 0)]).
Proof.
  split; reflexivity.
Qed.

(** ** Label-aware apply under transport faults *)

(** Ranks of rounds known to be free of faults get their calls answered. *)
Ltac use_clean :=
  repeat match goal with
         | Hc : forall k, k < _ -> ?flt ?i k = None |- context [?flt ?i ?k] =>
             rewrite (Hc k) by lia
         end.

Ltac normalise Hfn :=
  cbn; rewrite ?Hfn; cbn; repeat (progress use_clean; cbn).

Ltac by_rank_under Hfn :=
  let r := fresh "r" in
  let Hr := fresh "Hr" in
  intros r Hr; try (apply in_seq in Hr); destruct r as [|r]; normalise Hfn;
  rewrite ?string_resize_same, ?string_resize_length, ?Resize_same,
    ?Resize_length, ?Nat.eqb_refl, <- ?app_assoc;
  try reflexivity.


(** A round in which rank [k] met a fault: [k] has left the call, so the run
    is over, and the goal is about how rank [r] is left behind. *)
Ltac faulty_round Hfn Hr k Hk Hflt r :=
  rewrite run_left with (gone := k);
  [ rewrite outcome_at_map by exact Hr;
    destruct r; normalise Hfn;
    match goal with
    | |- context [respond ?f _ _] => destruct f; cbn; try discriminate
    end
  | exact Hk
  | destruct k; normalise Hfn; rewrite Hflt;
    reflexivity ].

Ltac last_round Hfn Hr r :=
  rewrite run_done;
  [ rewrite outcome_at_map by exact Hr;
    destruct r; normalise Hfn;
    match goal with
    | |- context [respond ?f _ _] => destruct f; cbn; try discriminate
    end
  | let k := fresh "k" in
    let Hk := fresh "Hk" in
    intros k Hk; destruct k; normalise Hfn;
    match goal with
    | |- context [respond ?f _ _] => destruct f; reflexivity
    end ].

Section Robust.
Variable T : Type.
Context `{Reducible T}.
Variable T_default : T.
Variable Env : Type.
Variable fn : callable (store Env (list T)).
Variable init : nat -> store Env (list T).
Variable n : nat.
Variable flt : faults.

Lemma ApplyWithLabels_returns_leader_result m' e r m log :
  fn (init 0) = (m', e) ->
  r < S n ->
  outcome_at (execute flt (S n)
                (fun r => ApplyWithLabels T_default r VerticalFederated fn (init r))) r
  = Some (Returned m, log) ->
  buf m = buf m'.
Proof.
  intros Hfn Hr. unfold execute, spmd, ApplyWithLabels.
  destruct e as [[[|c msg]|what]|].
  - (* an error without a message *)
    rewrite (run_broadcast_round _ _ _ _ (fun _ : nat => @PSize T 0));
      [ | by_rank Hfn | by_rank Hfn].
    destruct (round_faults flt 0 (S n)) as [Hc0 | [k [msg [Hk Hflt]]]];
      [ | now faulty_round Hfn Hr k Hk Hflt r ].
    rewrite (run_broadcast_round _ _ _ _
               (fun r => @PSize T (List.length (buf (if r =? 0 then m' else init r)))));
      [ | by_rank_under Hfn | by_rank_under Hfn].
    destruct (round_faults flt 1 (S n)) as [Hc1 | [k [msg [Hk Hflt]]]];
      [ | now faulty_round Hfn Hr k Hk Hflt r ].
    rewrite (run_broadcast_round _ _ _ _
               (fun r => PVals (if r =? 0 then buf m'
                                else Resize (buf (init r)) (List.length (buf m')) T_default)));
      [ | by_rank_under Hfn | by_rank_under Hfn].
    last_round Hfn Hr r.
    + rewrite Resize_same. cbn. intros Heq. now injection Heq as <- _.
    + intros Heq. now injection Heq as <- _.
  - (* an error with a message: nobody returns *)
    rewrite (run_broadcast_round _ _ _ _
               (fun r => @PSize T (if r =? 0 then S (String.length msg) else 0)));
      [ | by_rank Hfn | by_rank Hfn].
    destruct (round_faults flt 0 (S n)) as [Hc0 | [k [mg [Hk Hflt]]]];
      [ | now faulty_round Hfn Hr k Hk Hflt r ].
    rewrite (run_broadcast_round _ _ _ _
               (fun r => @PChars T (if r =? 0 then String c msg
                                    else string_resize "" (S (String.length msg)))));
      [ | by_rank_under Hfn | by_rank_under Hfn].
    now last_round Hfn Hr r.
  - (* another exception: the leader is gone before the first round *)
    rewrite run_left with (gone := 0); [ | lia | cbn; now rewrite Hfn ].
    rewrite outcome_at_map by exact Hr.
    destruct r; cbn; rewrite ?Hfn; cbn; discriminate.
  - (* the callable returns *)
    rewrite (run_broadcast_round _ _ _ _ (fun _ : nat => @PSize T 0));
      [ | by_rank Hfn | by_rank Hfn].
    destruct (round_faults flt 0 (S n)) as [Hc0 | [k [msg [Hk Hflt]]]];
      [ | now faulty_round Hfn Hr k Hk Hflt r ].
    rewrite (run_broadcast_round _ _ _ _
               (fun r => @PSize T (List.length (buf (if r =? 0 then m' else init r)))));
      [ | by_rank_under Hfn | by_rank_under Hfn].
    destruct (round_faults flt 1 (S n)) as [Hc1 | [k [msg [Hk Hflt]]]];
      [ | now faulty_round Hfn Hr k Hk Hflt r ].
    rewrite (run_broadcast_round _ _ _ _
               (fun r => PVals (if r =? 0 then buf m'
                                else Resize (buf (init r)) (List.length (buf m')) T_default)));
      [ | by_rank_under Hfn | by_rank_under Hfn].
    last_round Hfn Hr r.
    + rewrite Resize_same. cbn. intros Heq. now injection Heq as <- _.
    + intros Heq. now injection Heq as <- _.
Qed.
End Robust.

Section RobustRaw.
Variable T : Type.
Context `{Reducible T}.
Variable Env : Type.
Variable fn : callable (store Env (list Byte.byte)).
Variable init : nat -> store Env (list Byte.byte).
Variable size : nat.
Variable n : nat.
Variable flt : faults.

Lemma ApplyWithLabels_raw_returns_leader_result m' e r m log :
  fn (init 0) = (m', e) ->
  size <= List.length (buf m') ->
  (forall k, k < S n -> size <= List.length (buf (init k))) ->
  r < S n ->
  outcome_at (execute (T := T) flt (S n)
                (fun r => ApplyWithLabels_raw r VerticalFederated size fn (init r))) r
  = Some (Returned m, log) ->
  firstn size (buf m) = firstn size (buf m').
Proof.
  intros Hfn Hlead Hall Hr. unfold execute, spmd, ApplyWithLabels_raw.
  assert (Hlen : List.length (firstn size (buf m')) = size).
  { rewrite length_firstn. lia. }
  assert (Hshape : forall k, k < S n ->
            List.length (firstn size (buf (init k)))
            = List.length (firstn size (buf m'))).
  { intros k Hk. rewrite !length_firstn. specialize (Hall k Hk). lia. }
  assert (Hfirst : firstn size (firstn size (buf m')) = firstn size (buf m')).
  { rewrite <- Hlen at 1. apply firstn_all. }
  destruct e as [[[|c msg]|what]|].
  - rewrite (run_broadcast_round _ _ _ _ (fun _ : nat => @PSize T 0));
      [ | by_rank Hfn | by_rank Hfn].
    destruct (round_faults flt 0 (S n)) as [Hc0 | [k [msg [Hk Hflt]]]];
      [ | now faulty_round Hfn Hr k Hk Hflt r ].
    rewrite (run_broadcast_round _ _ _ _
               (fun r => @PBytes T (firstn size (buf (if r =? 0 then m' else init r)))));
      [ | by_rank_under Hfn | by_rank_under Hfn;
          rewrite Hshape by lia; apply Nat.eqb_refl ].
    last_round Hfn Hr r.
    + intros Heq. injection Heq as <- _. cbn.
      now rewrite firstn_app, Hlen, Nat.sub_diag, app_nil_r.
    + intros Heq. injection Heq as <- _. cbn.
      now rewrite firstn_app, Hlen, Nat.sub_diag, app_nil_r.
  - rewrite (run_broadcast_round _ _ _ _
               (fun r => @PSize T (if r =? 0 then S (String.length msg) else 0)));
      [ | by_rank Hfn | by_rank Hfn].
    destruct (round_faults flt 0 (S n)) as [Hc0 | [k [mg [Hk Hflt]]]];
      [ | now faulty_round Hfn Hr k Hk Hflt r ].
    rewrite (run_broadcast_round _ _ _ _
               (fun r => @PChars T (if r =? 0 then String c msg
                                    else string_resize "" (S (String.length msg)))));
      [ | by_rank_under Hfn | by_rank_under Hfn].
    now last_round Hfn Hr r.
  - rewrite run_left with (gone := 0); [ | lia | cbn; now rewrite Hfn ].
    rewrite outcome_at_map by exact Hr.
    destruct r; cbn; rewrite ?Hfn; cbn; discriminate.
  - rewrite (run_broadcast_round _ _ _ _ (fun _ : nat => @PSize T 0));
      [ | by_rank Hfn | by_rank Hfn].
    destruct (round_faults flt 0 (S n)) as [Hc0 | [k [msg [Hk Hflt]]]];
      [ | now faulty_round Hfn Hr k Hk Hflt r ].
    rewrite (run_broadcast_round _ _ _ _
               (fun r => @PBytes T (firstn size (buf (if r =? 0 then m' else init r)))));
      [ | by_rank_under Hfn | by_rank_under Hfn;
          rewrite Hshape by lia; apply Nat.eqb_refl ].
    last_round Hfn Hr r.
    + intros Heq. injection Heq as <- _. cbn.
      now rewrite firstn_app, Hlen, Nat.sub_diag, app_nil_r.
    + intros Heq. injection Heq as <- _. cbn.
      now rewrite firstn_app, Hlen, Nat.sub_diag, app_nil_r.
Qed.
End RobustRaw.

Section RobustTry.
Variable T : Type.
Context `{Reducible T}.
Variable M : Type.
Variable fn : callable M.
Variable init : nat -> M.
Variable n : nat.
Variable flt : faults.

Lemma TryApplyWithLabels_success_means_no_message m' e r m log :
  fn (init 0) = (m', e) ->
  r < S n ->
  outcome_at (execute (T := T) flt (S n)
                (fun r => TryApplyWithLabels r fn (init r))) r
  = Some (Returned (Success, m), log) ->
  e = None \/ e = Some (DmlcError "").
Proof.
  intros Hfn Hr. unfold execute, spmd.
  destruct e as [[[|c msg]|what]|].
  - now right.
  - rewrite (run_broadcast_round _ _ _ _
               (fun r => @PSize T (if r =? 0 then S (String.length msg) else 0)));
      [ | by_rank Hfn | by_rank Hfn].
    destruct (round_faults flt 0 (S n)) as [Hc0 | [k [mg [Hk Hflt]]]];
      [ | now faulty_round Hfn Hr k Hk Hflt r ].
    rewrite (run_broadcast_round _ _ _ _
               (fun r => @PChars T (if r =? 0 then String c msg
                                    else string_resize "" (S (String.length msg)))));
      [ | by_rank_under Hfn | by_rank_under Hfn].
    now last_round Hfn Hr r.
  - rewrite run_left with (gone := 0); [ | lia | cbn; now rewrite Hfn ].
    rewrite outcome_at_map by exact Hr.
    destruct r; cbn; rewrite ?Hfn; cbn; discriminate.
  - now left.
Qed.
End RobustTry.

(** ** Label-aware apply: main results *)

(** C7.  Vertical federated learning, no transport fault, a leader whose
    [fn] returns.  [HostDeviceVector] overload: after the message length,
    every rank broadcasts the size of its container from the leader, resizes
    the container to the leader's size and then receives the contents; every
    rank returns, and its container is the leader's result, whatever it held
    before (an empty container included).  Raw buffer overload, every rank
    passing the same [size] within its buffer: every rank returns and the
    [size] bytes of its view are those of the leader.  And whatever the
    transport and the leader's [fn] do: a rank that returns from either
    overload holds what the leader's [fn] computed. *)
Theorem ApplyWithLabels_replicates_leader_result :
  (forall (T : Type) `{Reducible T} (T_default : T) (Env : Type)
          (fn : callable (store Env (list T)))
          (init : nat -> store Env (list T)) (n : nat)
          (m' : store Env (list T)) (r : nat),
      fn (init 0) = (m', None) ->
      r < S n ->
      outcome_at
        (execute no_fault (S n)
           (fun r => ApplyWithLabels T_default r VerticalFederated fn (init r)))
        r
      = Some (Returned (set_buf (if r =? 0 then m' else init r) (buf m')),
              if r =? 0
              then [EvApply; EvColl (RBroadcast (PSize 0) 0);
                    EvColl (RBroadcast (PSize (List.length (buf m'))) 0);
                    EvResize (List.length (buf m'));
                    EvColl (RBroadcast (PVals (buf m')) 0)]
              else [EvColl (RBroadcast (PSize 0) 0);
                    EvColl (RBroadcast (PSize (List.length (buf (init r)))) 0);
                    EvResize (List.length (buf m'));
                    EvColl (RBroadcast
                              (PVals (Resize (buf (init r))
                                             (List.length (buf m')) T_default))
                              0)]))
  /\ (forall (T : Type) `{Reducible T} (Env : Type)
             (fn : callable (store Env (list Byte.byte)))
             (init : nat -> store Env (list Byte.byte)) (size n : nat)
             (m' : store Env (list Byte.byte)) (r : nat),
        fn (init 0) = (m', None) ->
        size <= List.length (buf m') ->
        (forall k, k < S n -> size <= List.length (buf (init k))) ->
        r < S n ->
        exists m log,
          outcome_at
            (execute (T := T) no_fault (S n)
               (fun r => ApplyWithLabels_raw r VerticalFederated size fn (init r)))
            r
          = Some (Returned m, log)
          /\ firstn size (buf m) = firstn size (buf m')
          /\ skipn size (buf m)
             = skipn size (buf (if r =? 0 then m' else init r)))
  /\ (forall (T : Type) `{Reducible T} (T_default : T) (Env : Type)
             (fn : callable (store Env (list T)))
             (init : nat -> store Env (list T)) (n : nat) (flt : faults)
             (m' : store Env (list T)) (e : option exn) (r : nat)
             (m : store Env (list T)) (log : list (event T)),
        fn (init 0) = (m', e) ->
        r < S n ->
        outcome_at
          (execute flt (S n)
             (fun r => ApplyWithLabels T_default r VerticalFederated fn (init r)))
          r
        = Some (Returned m, log) ->
        buf m = buf m')
  /\ (forall (T : Type) `{Reducible T} (Env : Type)
             (fn : callable (store Env (list Byte.byte)))
             (init : nat -> store Env (list Byte.byte)) (size n : nat)
             (flt : faults) (m' : store Env (list Byte.byte))
             (e : option exn) (r : nat) (m : store Env (list Byte.byte))
             (log : list (event T)),
        fn (init 0) = (m', e) ->
        size <= List.length (buf m') ->
        (forall k, k < S n -> size <= List.length (buf (init k))) ->
        r < S n ->
        outcome_at
          (execute (T := T) flt (S n)
             (fun r => ApplyWithLabels_raw r VerticalFederated size fn (init r)))
          r
        = Some (Returned m, log) ->
        firstn size (buf m) = firstn size (buf m')).
Proof.
  split; [|split; [|split]].
  3:{ intros T HR d Env fn init n flt m' e r m log Hfn Hr Hout.
      exact (ApplyWithLabels_returns_leader_result d fn init flt Hfn Hr Hout). }
  3:{ intros T HR Env fn init size n flt m' e r m log Hfn Hlead Hall Hr Hout.
      exact (ApplyWithLabels_raw_returns_leader_result fn init flt Hfn Hlead
               Hall Hr Hout). }
  - intros T HR d Env fn init n m' r Hfn Hr.
    unfold execute, spmd.
    rewrite (ApplyWithLabels_quiet d fn init n (fun _ => []) 13 0 Hfn)
      by now left.
    now rewrite outcome_at_map.
  - intros T HR Env fn init size n m' r Hfn Hlead Hall Hr.
    unfold execute, spmd.
    rewrite (ApplyWithLabels_raw_quiet fn init (fun _ => []) 14 0 Hfn
               (or_introl eq_refl) Hlead Hall).
    rewrite outcome_at_map by exact Hr.
    eexists. eexists. split; [reflexivity|]. cbn [buf set_buf].
    assert (Hlen : List.length (firstn size (buf m')) = size).
    { rewrite length_firstn. lia. }
    split.
    + rewrite firstn_app, Hlen, Nat.sub_diag. cbn [firstn].
      rewrite app_nil_r. rewrite <- Hlen at 1. apply firstn_all.
    + rewrite skipn_app, Hlen, Nat.sub_diag. cbn [skipn].
      rewrite <- Hlen at 1. now rewrite skipn_all.
Qed.

Lemma ApplyWithLabels_replicates_leader_result_witness :
  outcome_at
    (execute no_fault 3
       (fun r => ApplyWithLabels 0%Z r VerticalFederated fn_returns
                                 (MkStore tt []))) 2
  = Some (Returned (MkStore tt [1; 2; 3]%Z),
          [EvColl (RBroadcast (PSize 0) 0);
           EvColl (RBroadcast (PSize 0) 0);
           EvResize 3;
           EvColl (RBroadcast (PVals [0; 0; 0]%Z) 0)]).
Proof.
  destruct ApplyWithLabels_replicates_leader_result as [Hvec _].
  assert (Hlt : 2 < 3) by lia.
  exact (Hvec Z _ 0%Z unit fn_returns (fun _ => MkStore tt []) 2
              (MkStore tt [1; 2; 3]%Z) 2 eq_refl Hlt).
Defined.

(** C2, as the code has it.  [TryApplyWithLabels] without transport faults:
    [fn] is called on the leader and on no other rank.  If it returns, every
    rank gets [Success]; if it throws a [dmlc::Error] whose message is not
    empty, the length that is broadcast is not zero and every rank ends in
    the fatal error carrying that message.  So either all ranks get
    [Success] or all end in the same fatal error.  And whatever the
    transport does, a rank gets [Success] only if the leader's [fn] threw no
    error that carries a message. *)
Theorem TryApplyWithLabels_all_or_none :
  (forall (T : Type) `{Reducible T} (M : Type) (fn : callable M)
          (init : nat -> M) (n : nat) (m' : M) (e : option exn) (r : nat),
      fn (init 0) = (m', e) ->
      e = None \/ (exists c msg, e = Some (DmlcError (String c msg))) ->
      r < S n ->
      exists log,
        outcome_at
          (execute (T := T) no_fault (S n)
             (fun r => TryApplyWithLabels r fn (init r))) r
        = Some (match e with
                | None => Returned (Success, if r =? 0 then m' else init r)
                | Some _ => Aborted (caught_message e)
                end, log)
        /\ applications log = (if r =? 0 then 1 else 0))
  /\ (forall (T : Type) `{Reducible T} (M : Type) (fn : callable M)
             (init : nat -> M) (n : nat) (flt : faults) (m' : M)
             (e : option exn) (r : nat) (m : M) (log : list (event T)),
        fn (init 0) = (m', e) ->
        r < S n ->
        outcome_at
          (execute (T := T) flt (S n)
             (fun r => TryApplyWithLabels r fn (init r))) r
        = Some (Returned (Success, m), log) ->
        e = None \/ e = Some (DmlcError "")).
Proof.
  split.
  - intros T HR M fn init n m' e r Hfn [-> | [c [msg ->]]] Hr;
      unfold execute, spmd.
    + rewrite (TryApply_quiet fn init n (fun _ => []) 15 0 Hfn) by now left.
      rewrite outcome_at_map by exact Hr.
      destruct r; eexists; split; reflexivity.
    + rewrite (TryApply_error fn init n (fun _ => []) 14 0 Hfn).
      rewrite outcome_at_map by exact Hr.
      destruct r; eexists; split; reflexivity.
  - intros T HR M fn init n flt m' e r m log Hfn Hr Hout.
    exact (TryApplyWithLabels_success_means_no_message fn init flt Hfn Hr Hout).
Qed.

Lemma TryApplyWithLabels_all_or_none_witness :
  (exists log,
      outcome_at
        (execute (T := Z) no_fault 2
           (fun r => TryApplyWithLabels r fn_fails (MkStore tt []))) 1
      = Some (Aborted "boom", log) /\ applications log = 0)
  /\ (exists log,
        outcome_at
          (execute (T := Z) no_fault 2
             (fun r => TryApplyWithLabels r fn_returns (MkStore tt []))) 0
        = Some (Returned (Success, MkStore tt [1; 2; 3]%Z), log)
        /\ applications log = 1).
Proof.
  destruct TryApplyWithLabels_all_or_none as [Hall _].
  split.
  - assert (Hlt : 1 < 2) by lia.
    exact (Hall Z _ _ fn_fails (fun _ => MkStore tt []) 1 _ _ 1 eq_refl
             (or_intror (ex_intro _ "b"%char (ex_intro _ "oom" eq_refl))) Hlt).
  - assert (Hlt : 0 < 2) by lia.
    exact (Hall Z _ _ fn_returns (fun _ => MkStore tt []) 1 _ _ 0 eq_refl
             (or_introl eq_refl) Hlt).
Defined.

(** C2 as stated fails.  A leader whose [fn] throws a [dmlc::Error] with an
    empty message: the error is dropped and every rank gets [Success].  A
    leader whose [fn] throws something else: nothing catches it, the leader
    leaves the call with that exception and the other rank waits in its
    first broadcast for ever. *)
Lemma TryApplyWithLabels_error_not_always_reported :
  (snd (fn_fails_silently (MkStore tt [])) = Some (DmlcError "")
   /\ returns_of
        (execute (T := Z) no_fault 2
           (fun r => TryApplyWithLabels r fn_fails_silently (MkStore tt [])))
      = Some [Returned (Success, MkStore tt []);
              Returned (Success, MkStore tt [])])
  /\ returns_of
       (execute (T := Z) no_fault 2
          (fun r => TryApplyWithLabels r fn_throws (MkStore tt [])))
     = Some [Threw (OtherException "std::bad_alloc"); Hung].
Proof.
  repeat split.
Qed.

(** ** The sequence of collective calls *)

Section CallSequences.

Variable n : nat.

Lemma constant_map {X : Type} (f : nat -> X) (a : X) (l : list nat) :
  (forall r, In r l -> f r = a) -> map f l = map (fun _ => a) l.
Proof. intros Hall. now apply map_ext_in. Qed.

Lemma TryApplyWithLabels_calls (T : Type) `{Reducible T} (M : Type)
  (fn : callable M) (init : nat -> M) (m' : M) :
  fn (init 0) = (m', None) ->
  call_logs (execute (T := T) no_fault (S n)
               (fun r => TryApplyWithLabels r fn (init r)))
  = Some (map (fun _ => [CallBroadcast 0]) (seq 0 (S n))).
Proof.
  intros Hfn. unfold execute, spmd.
  rewrite (TryApply_quiet fn init n (fun _ => []) 15 0 Hfn) by now left.
  cbn [call_logs option_map]. rewrite map_map. f_equal.
  apply constant_map. intros r _. now destruct r.
Qed.

Lemma ApplyWithLabels_calls (T : Type) `{Reducible T} (T_default : T)
  (Env : Type) (info : MetaInfo) (fn : callable (store Env (list T)))
  (init : nat -> store Env (list T)) (m' : store Env (list T)) :
  fn (init 0) = (m', None) ->
  call_logs (execute no_fault (S n)
               (fun r => ApplyWithLabels T_default r info fn (init r)))
  = Some (map (fun _ => if IsVerticalFederated info
                        then [CallBroadcast 0; CallBroadcast 0; CallBroadcast 0]
                        else []) (seq 0 (S n))).
Proof.
  intros Hfn. unfold execute, spmd.
  destruct (IsVerticalFederated info) eqn:Hinfo.
  - destruct info; try discriminate Hinfo.
    rewrite (ApplyWithLabels_quiet T_default fn init n (fun _ => []) 13 0 Hfn)
      by now left.
    cbn [call_logs option_map]. rewrite map_map. f_equal.
    apply constant_map. intros r _. now destruct r.
  - rewrite ApplyWithLabels_local by exact Hinfo.
    cbn [call_logs option_map]. now rewrite map_map.
Qed.

Lemma ApplyWithLabels_raw_calls (T : Type) `{Reducible T} (Env : Type)
  (info : MetaInfo) (size : nat)
  (fn : callable (store Env (list Byte.byte)))
  (init : nat -> store Env (list Byte.byte))
  (m' : store Env (list Byte.byte)) :
  fn (init 0) = (m', None) ->
  size <= List.length (buf m') ->
  (forall r, r < S n -> size <= List.length (buf (init r))) ->
  call_logs (execute (T := T) no_fault (S n)
               (fun r => ApplyWithLabels_raw r info size fn (init r)))
  = Some (map (fun _ => if IsVerticalFederated info
                        then [CallBroadcast 0; CallBroadcast 0]
                        else []) (seq 0 (S n))).
Proof.
  intros Hfn Hlead Hall. unfold execute, spmd.
  destruct (IsVerticalFederated info) eqn:Hinfo.
  - destruct info; try discriminate Hinfo.
    rewrite (ApplyWithLabels_raw_quiet fn init (fun _ => []) 14 0 Hfn
               (or_introl eq_refl) Hlead Hall).
    cbn [call_logs option_map]. rewrite map_map. f_equal.
    apply constant_map. intros r _. now destruct r.
  - rewrite ApplyWithLabels_raw_local by exact Hinfo.
    cbn [call_logs option_map]. now rewrite map_map.
Qed.

Lemma GlobalMax_calls (T : Type) `{Reducible T} (info : MetaInfo)
  (v : nat -> T) :
  call_logs (execute no_fault (S n) (fun r => GlobalMax info (v r)))
  = Some (map (fun _ => if IsRowSplit info then [CallAllreduce kMax] else [])
              (seq 0 (S n))).
Proof.
  destruct (IsRowSplit info) eqn:Hinfo.
  - destruct info; try discriminate Hinfo.
    rewrite GlobalMax_reduces. cbn. now rewrite map_map.
  - rewrite GlobalMax_local by exact Hinfo. cbn. now rewrite map_map.
Qed.

Lemma GlobalSum_calls (T : Type) `{Reducible T} (info : MetaInfo)
  (values : nat -> list T) :
  (forall r, r < S n -> List.length (values r) = List.length (values 0)) ->
  call_logs (execute no_fault (S n) (fun r => GlobalSum info (values r)))
  = Some (map (fun _ => if IsRowSplit info then [CallAllreduce kSum] else [])
              (seq 0 (S n))).
Proof.
  intros Hlen. destruct (IsRowSplit info) eqn:Hinfo.
  - destruct info; try discriminate Hinfo.
    rewrite GlobalSum_reduces by exact Hlen. cbn. now rewrite map_map.
  - rewrite GlobalSum_local by exact Hinfo. cbn. now rewrite map_map.
Qed.

Lemma GlobalRatio_calls (T : Type) `{Reducible T} `{Arithmetic T}
  (info : MetaInfo) (x y : nat -> T) :
  call_logs (execute no_fault (S n) (fun r => GlobalRatio info (x r) (y r)))
  = Some (map (fun _ => if IsRowSplit info then [CallAllreduce kSum] else [])
              (seq 0 (S n))).
Proof.
  destruct (IsRowSplit info) eqn:Hinfo.
  - destruct info; try discriminate Hinfo.
    rewrite GlobalRatio_reduces. cbn. now rewrite map_map.
  - rewrite GlobalRatio_local by exact Hinfo. cbn. now rewrite map_map.
Qed.

Lemma BroadcastGradient_calls (EncryptGradient : list float -> list Byte.byte)
  (NoFederated : string) (Env : Type) (use_federated is_encrypted : bool)
  (info : MetaInfo) (grad_fn : callable (store Env (list GradientPair)))
  (init : nat -> store Env (list GradientPair))
  (m1 m2 : store Env (list GradientPair)) :
  grad_fn (init 0) = (m1, None) ->
  grad_fn (zeroed init m1 0) = (m2, None) ->
  call_logs (execute no_fault (S n)
               (fun r => BroadcastGradient EncryptGradient NoFederated
                           use_federated is_encrypted r info grad_fn (init r)))
  = Some (map (fun _ =>
                 if IsVerticalFederated info && is_encrypted
                 then if use_federated
                      then [CallBroadcast 0; CallBroadcast 0; CallBroadcast 0;
                            CallBroadcast 0; CallBroadcast 0]
                      else []
                 else if IsVerticalFederated info
                      then [CallBroadcast 0; CallBroadcast 0; CallBroadcast 0]
                      else []) (seq 0 (S n))).
Proof.
  intros Hfirst Hsecond.
  destruct (IsVerticalFederated info && is_encrypted) eqn:Hmode.
  - apply andb_true_iff in Hmode. destruct Hmode as [Hinfo ->].
    destruct info; try discriminate Hinfo.
    destruct use_federated.
    + rewrite (BroadcastGradient_encrypted_run EncryptGradient NoFederated
                 grad_fn init n Hfirst Hsecond).
      cbn [call_logs option_map]. rewrite map_map. f_equal.
      apply constant_map. intros r _. now destruct r.
    + unfold execute, spmd. rewrite run_done by reflexivity.
      cbn. now rewrite map_map.
  - unfold execute, spmd.
    rewrite (map_ext _ (fun r => advance (ApplyWithLabels zero_gpair r info
                                            grad_fn (init r)) []))
      by (intros r; now rewrite BroadcastGradient_delegates).
    exact (ApplyWithLabels_calls zero_gpair info grad_fn init Hfirst).
Qed.

End CallSequences.

(** C8, as the code has it.  Fix the partition mode, the encryption mode
    and the build.  In runs without transport faults in which the leader's
    callable returns (in [BroadcastGradient]: both of its calls), the
    sequence of [Broadcast] / [Allreduce] calls of every rank is the same
    whatever the data: two runs of the same operation on different callables
    and buffers issue the same calls. *)
Theorem collective_calls_fixed_by_mode
  (n : nat) (info : MetaInfo) (use_federated is_encrypted : bool) :
  (forall (T : Type) `{Reducible T} (M : Type) (fn fn' : callable M)
          (init init' : nat -> M) (m m' : M),
      fn (init 0) = (m, None) ->
      fn' (init' 0) = (m', None) ->
      call_logs (execute (T := T) no_fault (S n)
                   (fun r => TryApplyWithLabels r fn (init r)))
      = call_logs (execute (T := T) no_fault (S n)
                     (fun r => TryApplyWithLabels r fn' (init' r))))
  /\ (forall (T : Type) `{Reducible T} (T_default : T) (Env : Type)
          (fn fn' : callable (store Env (list T)))
          (init init' : nat -> store Env (list T))
          (m m' : store Env (list T)),
      fn (init 0) = (m, None) ->
      fn' (init' 0) = (m', None) ->
      call_logs (execute no_fault (S n)
                   (fun r => ApplyWithLabels T_default r info fn (init r)))
      = call_logs (execute no_fault (S n)
                     (fun r => ApplyWithLabels T_default r info fn' (init' r))))
  /\ (forall (T : Type) `{Reducible T} (Env : Type) (size : nat)
             (fn fn' : callable (store Env (list Byte.byte)))
             (init init' : nat -> store Env (list Byte.byte))
             (m m' : store Env (list Byte.byte)),
        fn (init 0) = (m, None) ->
        fn' (init' 0) = (m', None) ->
        size <= List.length (buf m) ->
        size <= List.length (buf m') ->
        (forall r, r < S n -> size <= List.length (buf (init r))) ->
        (forall r, r < S n -> size <= List.length (buf (init' r))) ->
        call_logs (execute (T := T) no_fault (S n)
                     (fun r => ApplyWithLabels_raw r info size fn (init r)))
        = call_logs (execute (T := T) no_fault (S n)
                       (fun r => ApplyWithLabels_raw r info size fn' (init' r))))
  /\ (forall (T : Type) `{Reducible T} `{Arithmetic T}
             (v v' x x' y y' : nat -> T) (values values' : nat -> list T),
        call_logs (execute no_fault (S n) (fun r => GlobalMax info (v r)))
        = call_logs (execute no_fault (S n) (fun r => GlobalMax info (v' r)))
        /\ call_logs (execute no_fault (S n)
                        (fun r => GlobalRatio info (x r) (y r)))
           = call_logs (execute no_fault (S n)
                          (fun r => GlobalRatio info (x' r) (y' r)))
        /\ ((forall r, r < S n ->
               List.length (values r) = List.length (values 0)) ->
            (forall r, r < S n ->
               List.length (values' r) = List.length (values' 0)) ->
            call_logs (execute no_fault (S n)
                         (fun r => GlobalSum info (values r)))
            = call_logs (execute no_fault (S n)
                           (fun r => GlobalSum info (values' r)))))
  /\ (forall (EncryptGradient : list float -> list Byte.byte)
             (NoFederated : string) (Env : Type)
             (grad_fn grad_fn' : callable (store Env (list GradientPair)))
             (init init' : nat -> store Env (list GradientPair))
             (m1 m2 m1' m2' : store Env (list GradientPair)),
        grad_fn (init 0) = (m1, None) ->
        grad_fn (zeroed init m1 0) = (m2, None) ->
        grad_fn' (init' 0) = (m1', None) ->
        grad_fn' (zeroed init' m1' 0) = (m2', None) ->
        call_logs (execute no_fault (S n)
                     (fun r => BroadcastGradient EncryptGradient NoFederated
                                 use_federated is_encrypted r info
                                 grad_fn (init r)))
        = call_logs (execute no_fault (S n)
                       (fun r => BroadcastGradient EncryptGradient NoFederated
                                   use_federated is_encrypted r info
                                   grad_fn' (init' r)))).
Proof.
  repeat split.
  - intros T HR M fn fn' init init' m m' Hfn Hfn'.
    now rewrite (TryApplyWithLabels_calls n (T := T) fn init Hfn),
      (TryApplyWithLabels_calls n (T := T) fn' init' Hfn').
  - intros T HR d Env fn fn' init init' m m' Hfn Hfn'.
    now rewrite (ApplyWithLabels_calls n d info fn init Hfn),
      (ApplyWithLabels_calls n d info fn' init' Hfn').
  - intros T HR Env size fn fn' init init' m m' Hfn Hfn' Hm Hm' Hall Hall'.
    now rewrite (ApplyWithLabels_raw_calls (T := T) info fn init Hfn Hm Hall),
      (ApplyWithLabels_raw_calls (T := T) info fn' init' Hfn' Hm' Hall').
  - now rewrite !GlobalMax_calls.
  - now rewrite !GlobalRatio_calls.
  - intros Hlen Hlen'. now rewrite !GlobalSum_calls.
  - intros Enc NoFed Env grad_fn grad_fn' init init' m1 m2 m1' m2'
      Hfirst Hsecond Hfirst' Hsecond'.
    now rewrite (BroadcastGradient_calls n Enc NoFed use_federated
                   is_encrypted info grad_fn init Hfirst Hsecond),
      (BroadcastGradient_calls n Enc NoFed use_federated
         is_encrypted info grad_fn' init' Hfirst' Hsecond').
Qed.

Lemma collective_calls_fixed_by_mode_witness :
  call_logs (execute no_fault 2
               (fun r => ApplyWithLabels 0%Z r VerticalFederated fn_returns
                                         (MkStore tt [])))
  = call_logs (execute no_fault 2
                 (fun r => ApplyWithLabels 0%Z r VerticalFederated
                             (fun m => (set_buf m [7]%Z, None))
                             (MkStore tt [4; 5]%Z))).
Proof.
  destruct (collective_calls_fixed_by_mode 1 VerticalFederated true false)
    as [_ [Hvec _]].
  exact (Hvec Z _ 0%Z unit fn_returns (fun m => (set_buf m [7]%Z, None))
              (fun _ => MkStore tt []) (fun _ => MkStore tt [4; 5]%Z)
              _ _ eq_refl eq_refl).
Defined.

(** C8 as stated fails.  Same operation, same mode, two leaders: one whose
    [fn] returns and one whose [fn] fails with "boom".  The first run issues
    three broadcasts on every rank, the second two. *)
Lemma collective_calls_depend_on_leader_error :
  call_logs (execute no_fault 2
               (fun r => ApplyWithLabels 0%Z r VerticalFederated fn_returns
                                         (MkStore tt [])))
  = Some [[CallBroadcast 0; CallBroadcast 0; CallBroadcast 0];
          [CallBroadcast 0; CallBroadcast 0; CallBroadcast 0]]
  /\ call_logs (execute no_fault 2
                  (fun r => ApplyWithLabels 0%Z r VerticalFederated fn_fails
                                            (MkStore tt [])))
     = Some [[CallBroadcast 0; CallBroadcast 0];
             [CallBroadcast 0; CallBroadcast 0]]
  /\ call_logs (execute no_fault 2
                  (fun r => ApplyWithLabels 0%Z r VerticalFederated fn_returns
                                            (MkStore tt [])))
     <> call_logs (execute no_fault 2
                     (fun r => ApplyWithLabels 0%Z r VerticalFederated fn_fails
                                               (MkStore tt []))).
Proof.
  repeat split. discriminate.
Qed.

(** * Further properties of the reductions *)

Lemma fold_max_bounds (v : nat -> Z) :
  forall l a,
    let M := fold_left (fun acc r => Z.max acc (v r)) l a in
    (a <= M)%Z /\ (forall r, In r l -> (v r <= M)%Z)
    /\ (M = a \/ exists r, In r l /\ M = v r).
Proof.
  induction l as [|x l IH]; intros a; cbn.
  - repeat split; [lia|contradiction|now left].
  - destruct (IH (Z.max a (v x))) as [Hge [Hall Hone]].
    repeat split.
    + lia.
    + intros r [<- | Hr]; [lia|now apply Hall].
    + destruct Hone as [-> | [r [Hr ->]]].
      * destruct (Z.max_spec a (v x)) as [[_ ->] | [_ ->]];
          [right; exists x; split; [now left|reflexivity] | now left].
      * right. exists r. split; [now right|reflexivity].
Qed.

(** X1.  [GlobalMax] over [int] under a row split, no transport fault:
    every rank returns the same value; it is at least every rank's input
    and it is the input of some rank. *)
Theorem GlobalMax_is_the_maximum (n : nat) (v : nat -> Z) :
  exists M : Z,
    (forall r, r < S n ->
       outcome_at (execute no_fault (S n) (fun r => GlobalMax RowSplit (v r))) r
       = Some (Returned M, [EvColl (RAllreduce [v r] kMax)]))
    /\ (forall k, k < S n -> (v k <= M)%Z)
    /\ (exists k, k < S n /\ M = v k).
Proof.
  exists (fold_ranks kMax v n).
  destruct (fold_max_bounds v (seq 1 n) (v 0)) as [Hge [Hall Hone]].
  repeat split.
  - intros r Hr. rewrite GlobalMax_reduces. now rewrite outcome_at_map.
  - intros k Hk. destruct k as [|k]; [exact Hge|].
    apply Hall. apply in_seq. lia.
  - destruct Hone as [Heq | [r [Hr Heq]]].
    + exists 0. split; [lia|exact Heq].
    + exists r. apply in_seq in Hr. split; [lia|exact Heq].
Qed.

(** X2.  A transport fault under a row split.  The rank whose [Allreduce]
    fails with [msg] ends [GlobalMax] and [GlobalRatio] in the fatal error
    [msg]; [GlobalSum] does not abort: it returns the failure [msg] to its
    caller.  Each has issued its one [Allreduce]. *)
Theorem reductions_on_transport_fault
  (T : Type) `{Reducible T} `{Arithmetic T} (flt : faults) (n : nat)
  (v x y : nat -> T) (values : nat -> list T) (r : nat) (msg : string) :
  r < S n ->
  flt 0 r = Some msg ->
  outcome_at (execute flt (S n) (fun r => GlobalMax RowSplit (v r))) r
  = Some (Aborted msg, [EvColl (RAllreduce [v r] kMax)])
  /\ outcome_at (execute flt (S n)
                   (fun r => GlobalRatio RowSplit (x r) (y r))) r
     = Some (Aborted msg, [EvColl (RAllreduce [x r; y r] kSum)])
  /\ ((forall k, k < S n ->
         List.length (values k) = List.length (values 0)) ->
      exists view,
        outcome_at (execute flt (S n)
                      (fun r => GlobalSum RowSplit (values r))) r
        = Some (Returned (Fail msg, view),
                [EvColl (RAllreduce (values r) kSum)])).
Proof.
  intros Hr Hflt. split; [|split].
  - rewrite GlobalMax_reduces, outcome_at_map by exact Hr. now rewrite Hflt.
  - rewrite GlobalRatio_reduces, outcome_at_map by exact Hr. now rewrite Hflt.
  - intros Hlen. exists (values r). rewrite GlobalSum_reduces by exact Hlen.
    rewrite outcome_at_map by exact Hr. now rewrite Hflt.
Qed.

Lemma reductions_on_transport_fault_witness :
  outcome_at
    (execute (fun round rank => if rank =? 1 then Some "link down" else None) 2
       (fun r => GlobalMax RowSplit (Z.of_nat r))) 1
  = Some (Aborted "link down", [EvColl (RAllreduce [1%Z] kMax)])
  /\ exists view,
       outcome_at
         (execute (fun round rank => if rank =? 1 then Some "link down" else None)
            2 (fun r => GlobalSum RowSplit [Z.of_nat r; 5%Z])) 1
       = Some (Returned (Fail "link down", view),
               [EvColl (RAllreduce [1%Z; 5%Z] kSum)]).
Proof.
  assert (Hlt : 1 < 2) by lia.
  destruct (@reductions_on_transport_fault Z _ _
              (fun round rank => if rank =? 1 then Some "link down" else None)
              1 Z.of_nat Z.of_nat Z.of_nat (fun r => [Z.of_nat r; 5%Z]) 1
              "link down" Hlt eq_refl) as [Hmax [_ Hsum]].
  split; [exact Hmax|].
  apply Hsum. intros k _. reflexivity.
Defined.

(** X3.  With a single worker the partition mode makes no difference to
    what the three reductions return: the worker's own value, its own
    vector, the ratio of its own two inputs. *)
Theorem reductions_single_worker
  (T : Type) `{Reducible T} `{Arithmetic T} (info : MetaInfo)
  (v x y : T) (values : list T) :
  returns_of (execute no_fault 1 (fun _ => GlobalMax info v))
  = Some [Returned v]
  /\ returns_of (execute no_fault 1 (fun _ => GlobalSum info values))
     = Some [Returned (Success, values)]
  /\ returns_of (execute no_fault 1 (fun _ => GlobalRatio info x y))
     = Some [Returned (if le_zero y then quiet_NaN else divide x y)].
Proof.
  destruct info; repeat split; try reflexivity;
    unfold execute, spmd; cbn; rewrite ?Nat.eqb_refl; cbn;
    try destruct (le_zero y); reflexivity.
Qed.

(** X4.  [GlobalSum] under a row split, no transport fault, every rank
    passing a vector of the same length: every rank gets [Success] and the
    same vector, as long as the inputs, whose element [i] is the sum over
    the ranks, in rank order, of their elements [i]. *)
Theorem GlobalSum_sums_elementwise
  (T : Type) `{Reducible T} (d : T) (n : nat) (values : nat -> list T) :
  (forall r, r < S n -> List.length (values r) = List.length (values 0)) ->
  exists total : list T,
    (forall r, r < S n ->
       outcome_at (execute no_fault (S n)
                     (fun r => GlobalSum RowSplit (values r))) r
       = Some (Returned (Success, total),
               [EvColl (RAllreduce (values r) kSum)]))
    /\ List.length total = List.length (values 0)
    /\ (forall i, i < List.length (values 0) ->
          nth i total d = fold_ranks kSum (fun r => nth i (values r) d) n).
Proof.
  intros Hlen.
  exists (reduce_all kSum (map values (seq 0 (S n)))).
  destruct (@reduce_rows T _ d kSum values (seq 1 n) (values 0)) as [Hl Hnth].
  { intros r Hr. apply in_seq in Hr. apply Hlen. lia. }
  repeat split.
  - intros r Hr. rewrite GlobalSum_reduces by exact Hlen.
    now rewrite outcome_at_map.
  - exact Hl.
  - exact Hnth.
Qed.

Lemma GlobalSum_sums_elementwise_witness :
  exists total : list Z,
    (forall r, r < 3 ->
       outcome_at (execute no_fault 3
                     (fun r => GlobalSum RowSplit [Z.of_nat r; 10%Z])) r
       = Some (Returned (Success, total),
               [EvColl (RAllreduce [Z.of_nat r; 10%Z] kSum)]))
    /\ List.length total = 2
    /\ nth 0 total 0%Z = 3%Z /\ nth 1 total 0%Z = 30%Z.
Proof.
  destruct (@GlobalSum_sums_elementwise Z _ 0%Z 2
              (fun r => [Z.of_nat r; 10%Z]) (fun r _ => eq_refl))
    as [total [Hout [Hlen Hnth]]].
  exists total. repeat split.
  - exact Hout.
  - exact Hlen.
  - assert (Hlt : 0 < 2) by lia. exact (Hnth 0 Hlt).
  - assert (Hlt : 1 < 2) by lia. exact (Hnth 1 Hlt).
Defined.

(** X5.  Calling [GlobalMax] again on what it returned changes nothing, in
    any partition mode, provided the maximum of a value with itself is that
    value: the second call returns to every rank what the first did. *)
Theorem GlobalMax_again
  (T : Type) `{Reducible T} (info : MetaInfo) (n : nat) (v : nat -> T) :
  (forall a : T, reduce kMax a a = a) ->
  exists out : nat -> T,
    (forall r, r < S n ->
       outcome_at (execute no_fault (S n) (fun r => GlobalMax info (v r))) r
       = Some (Returned (out r),
               if IsRowSplit info then [EvColl (RAllreduce [v r] kMax)]
               else []))
    /\ (forall r, r < S n ->
          outcome_at (execute no_fault (S n)
                        (fun r => GlobalMax info (out r))) r
          = Some (Returned (out r),
                  if IsRowSplit info then [EvColl (RAllreduce [out r] kMax)]
                  else [])).
Proof.
  intros Hidem.
  assert (Hconst : forall (m : T) (l : list nat),
             fold_left (fun acc _ => reduce kMax acc m) l m = m).
  { intros m l. induction l as [|x l IH]; cbn; [reflexivity|].
    now rewrite Hidem. }
  destruct (IsRowSplit info) eqn:Hinfo.
  - destruct info; try discriminate Hinfo.
    exists (fun _ => fold_ranks kMax v n). split; intros r Hr.
    + rewrite GlobalMax_reduces. now rewrite outcome_at_map.
    + rewrite GlobalMax_reduces, outcome_at_map by exact Hr.
      cbn. unfold fold_ranks at 1. now rewrite Hconst.
  - exists v. split; intros r Hr;
      rewrite GlobalMax_local by exact Hinfo; now rewrite outcome_at_map.
Qed.

Lemma GlobalMax_again_witness :
  exists out : nat -> Z,
    (forall r, r < 3 ->
       outcome_at (execute no_fault 3
                     (fun r => GlobalMax RowSplit (Z.of_nat r))) r
       = Some (Returned (out r), [EvColl (RAllreduce [Z.of_nat r] kMax)]))
    /\ (forall r, r < 3 ->
          outcome_at (execute no_fault 3
                        (fun r => GlobalMax RowSplit (out r))) r
          = Some (Returned (out r), [EvColl (RAllreduce [out r] kMax)])).
Proof.
  exact (@GlobalMax_again Z _ RowSplit 2 Z.of_nat Z.max_id).
Defined.

(** * Further properties of the label-aware apply *)

(** X6.  Outside vertical federated learning nothing is shared: whatever
    the transport would do and whatever [IsEncrypted()] says, each rank of
    [ApplyWithLabels] (both overloads) and of [BroadcastGradient] calls its
    own callable once on its own memory and issues no collective call; what
    the callable throws leaves the call. *)
Theorem apply_is_local_outside_federated
  (T : Type) `{Reducible T} (T_default : T) (Env : Type) (flt : faults)
  (world : nat) (info : MetaInfo)
  (fn : callable (store Env (list T))) (init : nat -> store Env (list T))
  (size : nat) (fn_raw : callable (store Env (list Byte.byte)))
  (init_raw : nat -> store Env (list Byte.byte))
  (EncryptGradient : list float -> list Byte.byte) (NoFederated : string)
  (use_federated is_encrypted : bool)
  (grad_fn : callable (store Env (list GradientPair)))
  (out_gpair : nat -> store Env (list GradientPair)) (r : nat) :
  IsVerticalFederated info = false ->
  r < world ->
  outcome_at (execute flt world
                (fun r => ApplyWithLabels T_default r info fn (init r))) r
  = Some (match fn (init r) with
          | (m', None) => Returned m'
          | (_, Some e) => Threw e
          end, [EvApply])
  /\ outcome_at (execute (T := T) flt world
                   (fun r => ApplyWithLabels_raw r info size fn_raw (init_raw r))) r
     = Some (match fn_raw (init_raw r) with
             | (m', None) => Returned m'
             | (_, Some e) => Threw e
             end, [EvApply])
  /\ outcome_at (execute flt world
                   (fun r => BroadcastGradient EncryptGradient NoFederated
                               use_federated is_encrypted r info grad_fn
                               (out_gpair r))) r
     = Some (match grad_fn (out_gpair r) with
             | (m', None) => Returned m'
             | (_, Some e) => Threw e
             end, [EvApply]).
Proof.
  intros Hinfo Hr. repeat split; unfold execute, spmd.
  - rewrite ApplyWithLabels_local by exact Hinfo.
    now rewrite outcome_at_map.
  - rewrite ApplyWithLabels_raw_local by exact Hinfo.
    now rewrite outcome_at_map.
  - rewrite (map_ext _ (fun r => advance (ApplyWithLabels zero_gpair r info
                                            grad_fn (out_gpair r)) []))
      by (intros k; rewrite BroadcastGradient_delegates;
          [reflexivity|now rewrite Hinfo]).
    rewrite ApplyWithLabels_local by exact Hinfo.
    now rewrite outcome_at_map.
Qed.

Lemma apply_is_local_outside_federated_witness :
  outcome_at (execute no_fault 2
                (fun r => BroadcastGradient plugin_example "no federated support"
                            false true r RowSplit gradient_example
                            (MkStore tt []))) 1
  = Some (Returned (MkStore tt [MkGradientPair 1.5%float 0.25%float;
                                MkGradientPair (-2)%float 1%float]),
          [EvApply]).
Proof.
  assert (Hlt : 1 < 2) by lia.
  exact (proj2 (proj2 (@apply_is_local_outside_federated Z _ 0%Z unit no_fault 2
            RowSplit fn_returns (fun _ => MkStore tt []) 0
            (fun m => (m, None)) (fun _ => MkStore tt [])
            plugin_example "no federated support" false true gradient_example
            (fun _ => MkStore tt []) 1 eq_refl Hlt))).
Defined.

(** X7.  Vertical federated learning, no transport fault, a leader whose
    callable fails with a [dmlc::Error] that carries a message: in both
    overloads of [ApplyWithLabels] every rank ends in the fatal error with
    that message after two broadcasts (length, message); the result is never
    broadcast and no container is resized. *)
Theorem ApplyWithLabels_failing_leader
  (T : Type) `{Reducible T} (T_default : T) (Env : Type)
  (fn : callable (store Env (list T))) (init : nat -> store Env (list T))
  (size : nat) (fn_raw : callable (store Env (list Byte.byte)))
  (init_raw : nat -> store Env (list Byte.byte)) (n : nat)
  (m' : store Env (list T)) (m_raw : store Env (list Byte.byte))
  (c : ascii) (msg : string) (r : nat) :
  fn (init 0) = (m', Some (DmlcError (String c msg))) ->
  fn_raw (init_raw 0) = (m_raw, Some (DmlcError (String c msg))) ->
  r < S n ->
  let log :=
    if r =? 0
    then [EvApply;
          EvColl (RBroadcast (PSize (S (String.length msg))) 0);
          EvColl (RBroadcast (PChars (String c msg)) 0)]
    else [EvColl (RBroadcast (PSize 0) 0);
          EvColl (RBroadcast
                    (PChars (string_resize "" (S (String.length msg)))) 0)] in
  outcome_at (execute no_fault (S n)
                (fun r => ApplyWithLabels T_default r VerticalFederated fn
                                          (init r))) r
  = Some (Aborted (String c msg), log)
  /\ outcome_at (execute (T := T) no_fault (S n)
                   (fun r => ApplyWithLabels_raw r VerticalFederated size
                                                 fn_raw (init_raw r))) r
     = Some (Aborted (String c msg), log).
Proof.
  intros Hfn Hraw Hr log. subst log. split; unfold execute, spmd.
  - rewrite (ApplyWithLabels_error T_default fn init n (fun _ => []) 14 0 Hfn).
    now rewrite outcome_at_map.
  - rewrite (ApplyWithLabels_raw_error fn_raw init_raw size n (fun _ => [])
               14 0 Hraw).
    now rewrite outcome_at_map.
Qed.

Lemma ApplyWithLabels_failing_leader_witness :
  outcome_at (execute no_fault 3
                (fun r => ApplyWithLabels 0%Z r VerticalFederated fn_fails
                                          (MkStore tt [7%Z]))) 2
  = Some (Aborted "boom",
          [EvColl (RBroadcast (PSize 0) 0);
           EvColl (RBroadcast (PChars (string_resize "" 4)) 0)]).
Proof.
  assert (Hlt : 2 < 3) by lia.
  exact (proj1 (@ApplyWithLabels_failing_leader Z _ 0%Z unit fn_fails
            (fun _ => MkStore tt [7%Z]) 0
            (fun m => (m, Some (DmlcError "boom"))) (fun _ => MkStore tt [])
            2 _ _ "b"%char "oom" 2 eq_refl eq_refl Hlt)).
Defined.

(** X8.  Vertical federated learning, a leader whose callable throws
    something that is not a [dmlc::Error]: whatever the transport does, the
    exception leaves the leader's call before anything is sent, and every
    other rank stays blocked in its first broadcast.  So for
    [TryApplyWithLabels] and both overloads of [ApplyWithLabels]. *)
Theorem leader_exception_escapes
  (T : Type) `{Reducible T} (T_default : T) (Env : Type) (flt : faults)
  (fn : callable (store Env (list T))) (init : nat -> store Env (list T))
  (size : nat) (fn_raw : callable (store Env (list Byte.byte)))
  (init_raw : nat -> store Env (list Byte.byte)) (n : nat)
  (m' : store Env (list T)) (m_raw : store Env (list Byte.byte))
  (what : string) (r : nat) :
  fn (init 0) = (m', Some (OtherException what)) ->
  fn_raw (init_raw 0) = (m_raw, Some (OtherException what)) ->
  r < S n ->
  outcome_at (execute flt (S n)
                (fun r => TryApplyWithLabels (T := T) r fn (init r))) r
  = Some (if r =? 0 then (Threw (OtherException what), [EvApply])
          else (Hung, [EvColl (RBroadcast (PSize 0) 0)]))
  /\ outcome_at (execute flt (S n)
                   (fun r => ApplyWithLabels T_default r VerticalFederated fn
                                             (init r))) r
     = Some (if r =? 0 then (Threw (OtherException what), [EvApply])
             else (Hung, [EvColl (RBroadcast (PSize 0) 0)]))
  /\ outcome_at (execute (T := T) flt (S n)
                   (fun r => ApplyWithLabels_raw r VerticalFederated size
                                                 fn_raw (init_raw r))) r
     = Some (if r =? 0 then (Threw (OtherException what), [EvApply])
             else (Hung, [EvColl (RBroadcast (PSize 0) 0)])).
Proof.
  intros Hfn Hraw Hr.
  repeat split; unfold execute, spmd, ApplyWithLabels, ApplyWithLabels_raw;
    (rewrite run_left with (gone := 0);
     [ | lia | cbn; rewrite ?Hfn, ?Hraw; reflexivity ]);
    rewrite outcome_at_map by exact Hr;
    destruct r; cbn; rewrite ?Hfn, ?Hraw; reflexivity.
Qed.

Lemma leader_exception_escapes_witness :
  outcome_at (execute no_fault 2
                (fun r => ApplyWithLabels 0%Z r VerticalFederated fn_throws
                                          (MkStore tt []))) 0
  = Some (Threw (OtherException "std::bad_alloc"), [EvApply])
  /\ outcome_at (execute no_fault 2
                   (fun r => ApplyWithLabels 0%Z r VerticalFederated fn_throws
                                             (MkStore tt []))) 1
     = Some (Hung, [EvColl (RBroadcast (PSize 0) 0)]).
Proof.
  assert (H0 : 0 < 2) by lia. assert (H1 : 1 < 2) by lia.
  split.
  - exact (proj1 (proj2 (@leader_exception_escapes Z _ 0%Z unit no_fault
              fn_throws (fun _ => MkStore tt []) 0
              (fun m => (m, Some (OtherException "std::bad_alloc")))
              (fun _ => MkStore tt []) 1 _ _ "std::bad_alloc" 0
              eq_refl eq_refl H0))).
  - exact (proj1 (proj2 (@leader_exception_escapes Z _ 0%Z unit no_fault
              fn_throws (fun _ => MkStore tt []) 0
              (fun m => (m, Some (OtherException "std::bad_alloc")))
              (fun _ => MkStore tt []) 1 _ _ "std::bad_alloc" 1
              eq_refl eq_refl H1))).
Defined.

(** ** Under transport faults *)

(** The end of a case: the outcome is read off and what is said of a rank
    that returns is checked on it. *)
Ltac conclude :=
  try (eexists; eexists; split; [reflexivity|]);
  repeat split; try reflexivity; try discriminate; intros;
  try match goal with
      | Hq : _ = Returned _ |- _ =>
          first [ discriminate Hq
                | injection Hq; intros; subst; cbn;
                  rewrite ?Resize_same; reflexivity ]
      end.

Section UnderFaults.
Variable T : Type.
Context `{Reducible T}.
Variable T_default : T.
Variable Env : Type.
Variable fn : callable (store Env (list T)).
Variable init : nat -> store Env (list T).
Variable n : nat.
Variable flt : faults.

(** X9.  Vertical federated learning, whatever the transport and the
    leader's callable do: [ApplyWithLabels] calls [fn] once on the leader and
    never on another rank, and a rank that returns has its captured
    variables as they were (on the leader: as [fn] left them) and the
    leader's result in its container. *)
Theorem ApplyWithLabels_calls_fn_on_leader_only m' e r :
  fn (init 0) = (m', e) ->
  r < S n ->
  exists res log,
    outcome_at (execute flt (S n)
                  (fun r => ApplyWithLabels T_default r VerticalFederated fn
                                            (init r))) r
    = Some (res, log)
    /\ applications log = (if r =? 0 then 1 else 0)
    /\ (forall m, res = Returned m ->
          env m = env (if r =? 0 then m' else init r) /\ buf m = buf m').
Proof.
  intros Hfn Hr. unfold execute, spmd, ApplyWithLabels.
  destruct e as [[[|c msg]|what]|].
  - rewrite (run_broadcast_round _ _ _ _ (fun _ : nat => @PSize T 0));
      [ | by_rank Hfn | by_rank Hfn].
    destruct (round_faults flt 0 (S n)) as [Hc0 | [k [msg [Hk Hflt]]]];
      [ | faulty_round Hfn Hr k Hk Hflt r; conclude ].
    rewrite (run_broadcast_round _ _ _ _
               (fun r => @PSize T (List.length (buf (if r =? 0 then m' else init r)))));
      [ | by_rank_under Hfn | by_rank_under Hfn].
    destruct (round_faults flt 1 (S n)) as [Hc1 | [k [msg [Hk Hflt]]]];
      [ | faulty_round Hfn Hr k Hk Hflt r; conclude ].
    rewrite (run_broadcast_round _ _ _ _
               (fun r => PVals (if r =? 0 then buf m'
                                else Resize (buf (init r)) (List.length (buf m')) T_default)));
      [ | by_rank_under Hfn | by_rank_under Hfn].
    last_round Hfn Hr r; conclude.
  - rewrite (run_broadcast_round _ _ _ _
               (fun r => @PSize T (if r =? 0 then S (String.length msg) else 0)));
      [ | by_rank Hfn | by_rank Hfn].
    destruct (round_faults flt 0 (S n)) as [Hc0 | [k [mg [Hk Hflt]]]];
      [ | faulty_round Hfn Hr k Hk Hflt r; conclude ].
    rewrite (run_broadcast_round _ _ _ _
               (fun r => @PChars T (if r =? 0 then String c msg
                                    else string_resize "" (S (String.length msg)))));
      [ | by_rank_under Hfn | by_rank_under Hfn].
    last_round Hfn Hr r; conclude.
  - rewrite run_left with (gone := 0); [ | lia | cbn; now rewrite Hfn ].
    rewrite outcome_at_map by exact Hr.
    destruct r; cbn; rewrite ?Hfn; cbn; conclude.
  - rewrite (run_broadcast_round _ _ _ _ (fun _ : nat => @PSize T 0));
      [ | by_rank Hfn | by_rank Hfn].
    destruct (round_faults flt 0 (S n)) as [Hc0 | [k [msg [Hk Hflt]]]];
      [ | faulty_round Hfn Hr k Hk Hflt r; conclude ].
    rewrite (run_broadcast_round _ _ _ _
               (fun r => @PSize T (List.length (buf (if r =? 0 then m' else init r)))));
      [ | by_rank_under Hfn | by_rank_under Hfn].
    destruct (round_faults flt 1 (S n)) as [Hc1 | [k [msg [Hk Hflt]]]];
      [ | faulty_round Hfn Hr k Hk Hflt r; conclude ].
    rewrite (run_broadcast_round _ _ _ _
               (fun r => PVals (if r =? 0 then buf m'
                                else Resize (buf (init r)) (List.length (buf m')) T_default)));
      [ | by_rank_under Hfn | by_rank_under Hfn].
    last_round Hfn Hr r; conclude.
Qed.
End UnderFaults.

Section TryUnderFaults.
Variable T : Type.
Context `{Reducible T}.
Variable M : Type.
Variable fn : callable M.
Variable init : nat -> M.
Variable n : nat.
Variable flt : faults.

(** X10.  Whatever the transport and the leader's callable do,
    [TryApplyWithLabels] calls [fn] once on the leader and never on another
    rank; a rank that gets a result back, success or failure, has the memory
    it came with, the leader the memory [fn] left. *)
Theorem TryApplyWithLabels_keeps_memory m' e r :
  fn (init 0) = (m', e) ->
  r < S n ->
  exists res log,
    outcome_at (execute (T := T) flt (S n)
                  (fun r => TryApplyWithLabels r fn (init r))) r
    = Some (res, log)
    /\ applications log = (if r =? 0 then 1 else 0)
    /\ (forall rc m, res = Returned (rc, m) ->
          m = if r =? 0 then m' else init r).
Proof.
  intros Hfn Hr. unfold execute, spmd.
  destruct e as [[[|c msg]|what]|].
  - rewrite (run_broadcast_round _ _ _ _ (fun _ : nat => @PSize T 0));
      [ | by_rank Hfn | by_rank Hfn].
    last_round Hfn Hr r; conclude.
  - rewrite (run_broadcast_round _ _ _ _
               (fun r => @PSize T (if r =? 0 then S (String.length msg) else 0)));
      [ | by_rank Hfn | by_rank Hfn].
    destruct (round_faults flt 0 (S n)) as [Hc0 | [k [mg [Hk Hflt]]]];
      [ | faulty_round Hfn Hr k Hk Hflt r; conclude ].
    rewrite (run_broadcast_round _ _ _ _
               (fun r => @PChars T (if r =? 0 then String c msg
                                    else string_resize "" (S (String.length msg)))));
      [ | by_rank_under Hfn | by_rank_under Hfn].
    last_round Hfn Hr r; conclude.
  - rewrite run_left with (gone := 0); [ | lia | cbn; now rewrite Hfn ].
    rewrite outcome_at_map by exact Hr.
    destruct r; cbn; rewrite ?Hfn; cbn; conclude.
  - rewrite (run_broadcast_round _ _ _ _ (fun _ : nat => @PSize T 0));
      [ | by_rank Hfn | by_rank Hfn].
    last_round Hfn Hr r; conclude.
Qed.
End TryUnderFaults.

Section RawUnderFaults.
Variable T : Type.
Context `{Reducible T}.
Variable Env : Type.
Variable fn : callable (store Env (list Byte.byte)).
Variable init : nat -> store Env (list Byte.byte).
Variable size : nat.
Variable n : nat.
Variable flt : faults.

Lemma view_written_back (view own : list Byte.byte) :
  List.length view = size ->
  size <= List.length own ->
  skipn size (view ++ skipn size own) = skipn size own
  /\ List.length (view ++ skipn size own) = List.length own.
Proof.
  intros Hview Hown. split.
  - rewrite skipn_app, Hview, Nat.sub_diag. cbn [skipn].
    rewrite <- Hview at 1. now rewrite skipn_all.
  - rewrite length_app, length_skipn. lia.
Qed.

(** X11.  The raw buffer overload under vertical federated learning,
    whatever the transport and the leader's callable do, every rank passing
    a [size] within its buffer: [fn] runs once on the leader and on no other
    rank, and a rank that returns has its captured variables as they were,
    a buffer of the length it had, and every byte past the first [size] as
    it was (on the leader: as [fn] left them). *)
Theorem ApplyWithLabels_raw_stays_in_view m' e r :
  fn (init 0) = (m', e) ->
  size <= List.length (buf m') ->
  (forall k, k < S n -> size <= List.length (buf (init k))) ->
  r < S n ->
  exists res log,
    outcome_at (execute (T := T) flt (S n)
                  (fun r => ApplyWithLabels_raw r VerticalFederated size fn
                                                (init r))) r
    = Some (res, log)
    /\ applications log = (if r =? 0 then 1 else 0)
    /\ (forall m, res = Returned m ->
          let own := if r =? 0 then m' else init r in
          env m = env own
          /\ skipn size (buf m) = skipn size (buf own)
          /\ List.length (buf m) = List.length (buf own)).
Proof.
  intros Hfn Hlead Hall Hr. unfold execute, spmd, ApplyWithLabels_raw.
  assert (Hlen : List.length (firstn size (buf m')) = size).
  { rewrite length_firstn. lia. }
  assert (Hshape : forall k, k < S n ->
            List.length (firstn size (buf (init k)))
            = List.length (firstn size (buf m'))).
  { intros k Hk. rewrite !length_firstn. specialize (Hall k Hk). lia. }
  assert (Hback : forall own : list Byte.byte,
             size <= List.length own ->
             skipn size (firstn size (buf m') ++ skipn size own) = skipn size own
             /\ List.length (firstn size (buf m') ++ skipn size own)
                = List.length own).
  { intros own Hown. now apply view_written_back. }
  destruct e as [[[|c msg]|what]|].
  - rewrite (run_broadcast_round _ _ _ _ (fun _ : nat => @PSize T 0));
      [ | by_rank Hfn | by_rank Hfn].
    destruct (round_faults flt 0 (S n)) as [Hc0 | [k [msg [Hk Hflt]]]];
      [ | faulty_round Hfn Hr k Hk Hflt r; conclude ].
    rewrite (run_broadcast_round _ _ _ _
               (fun r => @PBytes T (firstn size (buf (if r =? 0 then m' else init r)))));
      [ | by_rank_under Hfn | by_rank_under Hfn;
          rewrite Hshape by lia; apply Nat.eqb_refl ].
    last_round Hfn Hr r;
      eexists; eexists; (split; [reflexivity|]); (split; [reflexivity|]);
      intros m Heq; try discriminate Heq;
      injection Heq as <-; cbn; (split; [reflexivity|]);
      apply Hback; first [exact Hlead | apply Hall; lia].
  - rewrite (run_broadcast_round _ _ _ _
               (fun r => @PSize T (if r =? 0 then S (String.length msg) else 0)));
      [ | by_rank Hfn | by_rank Hfn].
    destruct (round_faults flt 0 (S n)) as [Hc0 | [k [mg [Hk Hflt]]]];
      [ | faulty_round Hfn Hr k Hk Hflt r; conclude ].
    rewrite (run_broadcast_round _ _ _ _
               (fun r => @PChars T (if r =? 0 then String c msg
                                    else string_resize "" (S (String.length msg)))));
      [ | by_rank_under Hfn | by_rank_under Hfn].
    last_round Hfn Hr r; conclude.
  - rewrite run_left with (gone := 0); [ | lia | cbn; now rewrite Hfn ].
    rewrite outcome_at_map by exact Hr.
    destruct r; cbn; rewrite ?Hfn; cbn; conclude.
  - rewrite (run_broadcast_round _ _ _ _ (fun _ : nat => @PSize T 0));
      [ | by_rank Hfn | by_rank Hfn].
    destruct (round_faults flt 0 (S n)) as [Hc0 | [k [msg [Hk Hflt]]]];
      [ | faulty_round Hfn Hr k Hk Hflt r; conclude ].
    rewrite (run_broadcast_round _ _ _ _
               (fun r => @PBytes T (firstn size (buf (if r =? 0 then m' else init r)))));
      [ | by_rank_under Hfn | by_rank_under Hfn;
          rewrite Hshape by lia; apply Nat.eqb_refl ].
    last_round Hfn Hr r;
      eexists; eexists; (split; [reflexivity|]); (split; [reflexivity|]);
      intros m Heq; try discriminate Heq;
      injection Heq as <-; cbn; (split; [reflexivity|]);
      apply Hback; first [exact Hlead | apply Hall; lia].
Qed.
End RawUnderFaults.

(** One round, then rank [r] has met its fault and is gone. *)
Ltac fault_in_first_round pl Hfn Hraw Hflt Hr r :=
  rewrite (run_broadcast_round _ _ _ _ pl);
  [ rewrite run_left with (gone := r);
    [ rewrite outcome_at_map by exact Hr;
      destruct r; cbn; rewrite ?Hfn, ?Hraw; cbn; rewrite Hflt; reflexivity
    | exact Hr
    | destruct r; cbn; rewrite ?Hfn, ?Hraw; cbn; rewrite Hflt; reflexivity ]
  | let k := fresh "k" in
    let Hk := fresh "Hk" in
    intros k Hk; destruct k; cbn; rewrite ?Hfn, ?Hraw; reflexivity
  | let k := fresh "k" in
    let Hk := fresh "Hk" in
    intros k Hk; destruct k; reflexivity ].

(** X12.  A transport fault in the first broadcast, the leader's callable
    having returned or thrown a [dmlc::Error]: [TryApplyWithLabels] hands
    the failure back to the rank that met it, with the rank's memory, and
    does not abort; both overloads of [ApplyWithLabels] turn it into the
    fatal error carrying the transport's message.  Nothing else has been
    sent by that rank. *)
Theorem first_broadcast_fault
  (T : Type) `{Reducible T} (T_default : T) (Env : Type) (flt : faults)
  (fn : callable (store Env (list T))) (init : nat -> store Env (list T))
  (size : nat) (fn_raw : callable (store Env (list Byte.byte)))
  (init_raw : nat -> store Env (list Byte.byte)) (n : nat)
  (m' : store Env (list T)) (m_raw : store Env (list Byte.byte))
  (e : option exn) (r : nat) (msg : string) :
  fn (init 0) = (m', e) ->
  fn_raw (init_raw 0) = (m_raw, e) ->
  (forall what, e <> Some (OtherException what)) ->
  r < S n ->
  flt 0 r = Some msg ->
  let log :=
    if r =? 0
    then [EvApply;
          EvColl (RBroadcast (PSize (String.length (caught_message e))) 0)]
    else [EvColl (RBroadcast (@PSize T 0) 0)] in
  outcome_at (execute flt (S n)
                (fun r => TryApplyWithLabels (T := T) r fn (init r))) r
  = Some (Returned (Fail msg, if r =? 0 then m' else init r), log)
  /\ outcome_at (execute flt (S n)
                   (fun r => ApplyWithLabels T_default r VerticalFederated fn
                                             (init r))) r
     = Some (Aborted msg, log)
  /\ outcome_at (execute (T := T) flt (S n)
                   (fun r => ApplyWithLabels_raw r VerticalFederated size
                                                 fn_raw (init_raw r))) r
     = Some (Aborted msg, log).
Proof.
  intros Hfn Hraw Hcaught Hr Hflt log. subst log.
  destruct e as [[what|what]|]; [ | now elim (Hcaught what) | ];
    repeat split; unfold execute, spmd, ApplyWithLabels, ApplyWithLabels_raw.
  - fault_in_first_round
      (fun r => @PSize T (if r =? 0 then String.length what else 0))
      Hfn Hraw Hflt Hr r.
  - fault_in_first_round
      (fun r => @PSize T (if r =? 0 then String.length what else 0))
      Hfn Hraw Hflt Hr r.
  - fault_in_first_round
      (fun r => @PSize T (if r =? 0 then String.length what else 0))
      Hfn Hraw Hflt Hr r.
  - fault_in_first_round (fun _ : nat => @PSize T 0) Hfn Hraw Hflt Hr r.
  - fault_in_first_round (fun _ : nat => @PSize T 0) Hfn Hraw Hflt Hr r.
  - fault_in_first_round (fun _ : nat => @PSize T 0) Hfn Hraw Hflt Hr r.
Qed.

(** * Further properties of the gradient broadcast *)

Lemma as_floats_length (values : list GradientPair) :
  List.length (as_floats values) = 2 * List.length values.
Proof.
  induction values as [|p values IH]; [reflexivity|].
  change (as_floats (p :: values))
    with (grad_ p :: hess_ p :: as_floats values).
  cbn [List.length]. rewrite IH. lia.
Qed.

Lemma as_floats_nth (values : list GradientPair) :
  forall i p,
    nth_error values i = Some p ->
    nth_error (as_floats values) (2 * i) = Some (grad_ p)
    /\ nth_error (as_floats values) (2 * i + 1) = Some (hess_ p).
Proof.
  induction values as [|q values IH]; intros i p Hnth.
  - destruct i; discriminate Hnth.
  - destruct i as [|i].
    + injection Hnth as ->. split; reflexivity.
    + change (as_floats (q :: values))
        with (grad_ q :: hess_ q :: as_floats values).
      replace (2 * S i) with (S (S (2 * i))) by lia.
      cbn [nth_error Nat.add]. apply IH. exact Hnth.
Qed.

Section GradientExtras.

Variable EncryptGradient : list float -> list Byte.byte.
Variable NoFederated : string.
Variable Env : Type.
Variable grad_fn : callable (store Env (list GradientPair)).
Variable init : nat -> store Env (list GradientPair).
Variable n : nat.
Variable flt : faults.

Let encrypted_call (r : nat) :=
  BroadcastGradient EncryptGradient NoFederated true true r VerticalFederated
                    grad_fn (init r).

(** X13.  The encrypted branch, whatever the transport does: what the
    leader's first call of [grad_fn] throws, a [dmlc::Error] included, is
    not caught; it leaves [BroadcastGradient] on the leader before the
    plugin is called or anything is sent, and every other rank stays
    blocked in its first broadcast. *)
Theorem BroadcastGradient_first_call_is_unguarded m1 e r :
  grad_fn (init 0) = (m1, Some e) ->
  r < S n ->
  outcome_at (execute flt (S n) encrypted_call) r
  = Some (if r =? 0 then (Threw e, [EvApply])
          else (Hung, [EvColl (RBroadcast (PSize 0) 0)])).
Proof.
  intros Hfn Hr. unfold execute, spmd, encrypted_call, BroadcastGradient.
  rewrite run_left with (gone := 0); [ | lia | cbn; now rewrite Hfn ].
  rewrite outcome_at_map by exact Hr.
  destruct r; cbn; rewrite ?Hfn; reflexivity.
Qed.

(** X14.  The encrypted branch with a leader whose first call of [grad_fn]
    returns.  A rank whose broadcast of the length fails, or whose broadcast
    of the payload fails after a round without fault, ends in the fatal
    error carrying the transport's message: it has not called
    [SyncEncryptedGradient], has not overwritten its gradient buffer and has
    not reached the final [ApplyWithLabels]. *)
Theorem BroadcastGradient_handshake_fault m1 r msg :
  grad_fn (init 0) = (m1, None) ->
  r < S n ->
  let data := as_floats (buf m1) in
  let encrypted := EncryptGradient data in
  (flt 0 r = Some msg ->
   outcome_at (execute flt (S n) encrypted_call) r
   = Some (Aborted msg,
           if r =? 0
           then [EvApply; EvEncrypt data;
                 EvColl (RBroadcast (PSize (List.length encrypted)) 0)]
           else [EvColl (RBroadcast (PSize 0) 0)]))
  /\ ((forall k, k < S n -> flt 0 k = None) ->
      flt 1 r = Some msg ->
      outcome_at (execute flt (S n) encrypted_call) r
      = Some (Aborted msg,
              if r =? 0
              then [EvApply; EvEncrypt data;
                    EvColl (RBroadcast (PSize (List.length encrypted)) 0);
                    EvColl (RBroadcast (PBytes encrypted) 0)]
              else [EvColl (RBroadcast (PSize 0) 0);
                    EvResize (List.length encrypted);
                    EvColl (RBroadcast
                              (PBytes (Resize [] (List.length encrypted)
                                              Byte.x00)) 0)])).
Proof.
  intros Hfn Hr data encrypted. subst data encrypted.
  split; [intros Hflt | intros Hc0 Hflt];
    unfold execute, spmd, encrypted_call, BroadcastGradient;
    rewrite (run_broadcast_round _ _ _ _
               (fun r => @PSize GradientPair
                  (if r =? 0
                   then List.length (EncryptGradient (as_floats (buf m1)))
                   else 0)));
    [ | by_rank Hfn | by_rank Hfn | | by_rank Hfn | by_rank Hfn ].
  - rewrite run_left with (gone := r);
      [ | exact Hr
        | destruct r; cbn; rewrite ?Hfn; cbn; rewrite Hflt; reflexivity ].
    rewrite outcome_at_map by exact Hr.
    destruct r; cbn; rewrite ?Hfn; cbn; rewrite Hflt; reflexivity.
  - rewrite (run_broadcast_round _ _ _ _
               (fun r => @PBytes GradientPair
                  (if r =? 0 then EncryptGradient (as_floats (buf m1))
                   else Resize [] (List.length
                                     (EncryptGradient (as_floats (buf m1))))
                               Byte.x00)));
      [ | by_rank_under Hfn | by_rank_under Hfn ].
    rewrite run_left with (gone := r);
      [ | exact Hr
        | destruct r; normalise Hfn; rewrite Hflt; reflexivity ].
    rewrite outcome_at_map by exact Hr.
    destruct r; normalise Hfn; rewrite Hflt; cbn;
      rewrite <- ?app_assoc; reflexivity.
Qed.

(** X15.  The encrypted branch, no transport fault, a leader whose first
    call of [grad_fn] returns [k] gradient pairs: the plugin's
    [EncryptGradient] is called once, right after that call, on [2 * k]
    floats: the gradient of pair [i] at position [2 * i], its hessian at
    [2 * i + 1]. *)
Theorem BroadcastGradient_encrypts_flattened_pairs m1 :
  grad_fn (init 0) = (m1, None) ->
  exists res data tail,
    outcome_at (execute no_fault (S n) encrypted_call) 0
    = Some (res, EvApply :: EvEncrypt data :: tail)
    /\ (forall d, ~ In (EvEncrypt d) tail)
    /\ List.length data = 2 * List.length (buf m1)
    /\ (forall i p, nth_error (buf m1) i = Some p ->
          nth_error data (2 * i) = Some (grad_ p)
          /\ nth_error data (2 * i + 1) = Some (hess_ p)).
Proof.
  intros Hfirst.
  destruct (grad_fn (zeroed init m1 0)) as [m2 e2] eqn:Hsecond.
  unfold encrypted_call.
  rewrite (BroadcastGradient_encrypted_run EncryptGradient NoFederated
             grad_fn init n Hfirst Hsecond).
  rewrite outcome_at_map by lia.
  eexists. exists (as_floats (buf m1)). eexists.
  split; [reflexivity|]. split; [|split].
  - intros d Hin. cbn in Hin.
    destruct e2 as [[[|c msg]|what]|]; cbn in Hin;
      repeat (destruct Hin as [Hin | Hin]; [discriminate Hin|]);
      exact Hin.
  - apply as_floats_length.
  - apply as_floats_nth.
Qed.

End GradientExtras.

(** X16.  Vertical federated learning without encryption:
    [BroadcastGradient] is the label-aware apply of [grad_fn].  Whatever
    the transport and the leader's [grad_fn] do, a rank that returns holds
    the gradient the leader computed; without transport faults and with a
    [grad_fn] that returns on the leader, every rank returns after three
    broadcasts, and the plugin is never called. *)
Theorem BroadcastGradient_unencrypted_replicates
  (EncryptGradient : list float -> list Byte.byte) (NoFederated : string)
  (Env : Type) (use_federated : bool)
  (grad_fn : callable (store Env (list GradientPair)))
  (init : nat -> store Env (list GradientPair)) (n : nat)
  (m1 : store Env (list GradientPair)) (e : option exn) (r : nat) :
  grad_fn (init 0) = (m1, e) ->
  r < S n ->
  (forall (flt : faults) m log,
      outcome_at
        (execute flt (S n)
           (fun r => BroadcastGradient EncryptGradient NoFederated
                       use_federated false r VerticalFederated grad_fn
                       (init r))) r
      = Some (Returned m, log) ->
      buf m = buf m1)
  /\ (e = None ->
      exists log,
        outcome_at
          (execute no_fault (S n)
             (fun r => BroadcastGradient EncryptGradient NoFederated
                         use_federated false r VerticalFederated grad_fn
                         (init r))) r
        = Some (Returned (set_buf (if r =? 0 then m1 else init r) (buf m1)),
                log)
        /\ calls log = [CallBroadcast 0; CallBroadcast 0; CallBroadcast 0]
        /\ syncs log = 0
        /\ forall d, ~ In (EvEncrypt d) log).
Proof.
  intros Hfn Hr.
  assert (Hsame : forall flt,
             execute flt (S n)
               (fun r => BroadcastGradient EncryptGradient NoFederated
                           use_federated false r VerticalFederated grad_fn
                           (init r))
             = execute flt (S n)
                 (fun r => ApplyWithLabels zero_gpair r VerticalFederated
                                           grad_fn (init r))).
  { intros flt. unfold execute, spmd.
    apply (f_equal (run flt 16 0)), map_ext. intros k.
    now rewrite BroadcastGradient_delegates. }
  split.
  - intros flt m log Hout. rewrite Hsame in Hout.
    exact (ApplyWithLabels_returns_leader_result zero_gpair grad_fn init flt
             Hfn Hr Hout).
  - intros ->. rewrite Hsame. unfold execute, spmd.
    rewrite (ApplyWithLabels_quiet zero_gpair grad_fn init n (fun _ => [])
               13 0 Hfn) by now left.
    rewrite outcome_at_map by exact Hr.
    eexists. split; [reflexivity|].
    destruct r; cbn; repeat split; intros d Hin;
      repeat (destruct Hin as [Hin | Hin]; [discriminate Hin|]); exact Hin.
Qed.

Lemma BroadcastGradient_unencrypted_replicates_witness :
  exists log,
    outcome_at
      (execute no_fault 2
         (fun r => BroadcastGradient plugin_example "no federated support"
                     true false r VerticalFederated gradient_example
                     (MkStore tt []))) 1
    = Some (Returned (MkStore tt [MkGradientPair 1.5%float 0.25%float;
                                  MkGradientPair (-2)%float 1%float]), log)
    /\ calls log = [CallBroadcast 0; CallBroadcast 0; CallBroadcast 0]
    /\ syncs log = 0.
Proof.
  assert (Hlt : 1 < 2) by lia.
  destruct (proj2 (@BroadcastGradient_unencrypted_replicates plugin_example
              "no federated support" unit true gradient_example
              (fun _ => MkStore tt []) 1 _ _ 1 eq_refl Hlt) eq_refl)
    as [log [Hout [Hcalls [Hsyncs _]]]].
  exists log. repeat split; assumption.
Defined.

Lemma ApplyWithLabels_calls_fn_on_leader_only_witness :
  exists res log,
    outcome_at (execute (link_down 1) 3
                  (fun r => ApplyWithLabels 0%Z r VerticalFederated fn_returns
                                            (MkStore tt [9%Z]))) 2
    = Some (res, log)
    /\ applications log = 0.
Proof.
  assert (Hlt : 2 < 3) by lia.
  destruct (@ApplyWithLabels_calls_fn_on_leader_only Z _ 0%Z unit fn_returns
              (fun _ => MkStore tt [9%Z]) 2 (link_down 1) _ _ 2 eq_refl Hlt)
    as [res [log [Hout [Happ _]]]].
  exists res, log. split; assumption.
Defined.

Lemma TryApplyWithLabels_keeps_memory_witness :
  exists res log,
    outcome_at (execute (T := Z) (link_down 0) 2
                  (fun r => TryApplyWithLabels r fn_fails (MkStore tt [9%Z]))) 1
    = Some (res, log)
    /\ applications log = 0
    /\ (forall rc m, res = Returned (rc, m) -> m = MkStore tt [9%Z]).
Proof.
  assert (Hlt : 1 < 2) by lia.
  exact (@TryApplyWithLabels_keeps_memory Z _ _ fn_fails
           (fun _ => MkStore tt [9%Z]) 1 (link_down 0) _ _ 1 eq_refl Hlt).
Defined.

Lemma ApplyWithLabels_raw_stays_in_view_witness :
  exists res log,
    outcome_at
      (execute (T := Z) no_fault 2
         (fun r => ApplyWithLabels_raw r VerticalFederated 1
                     (fun m => (set_buf m [Byte.x01; Byte.x02], None))
                     (MkStore tt [Byte.x0a; Byte.x0b]))) 1
    = Some (res, log)
    /\ applications log = 0
    /\ (forall m, res = Returned m ->
          env m = tt
          /\ skipn 1 (buf m) = [Byte.x0b]
          /\ List.length (buf m) = 2).
Proof.
  assert (Hlt : 1 < 2) by lia.
  assert (Hlead : 1 <= 2) by lia.
  exact (@ApplyWithLabels_raw_stays_in_view Z _ unit
           (fun m => (set_buf m [Byte.x01; Byte.x02], None))
           (fun _ => MkStore tt [Byte.x0a; Byte.x0b]) 1 1 no_fault _ _ 1
           eq_refl Hlead (fun _ _ => Hlead) Hlt).
Defined.

Lemma first_broadcast_fault_witness :
  outcome_at (execute (T := Z) (link_down 0) 2
                (fun r => TryApplyWithLabels r fn_returns (MkStore tt []))) 1
  = Some (Returned (Fail "link down", MkStore tt []),
          [EvColl (RBroadcast (PSize 0) 0)])
  /\ outcome_at (execute (link_down 0) 2
                   (fun r => ApplyWithLabels 0%Z r VerticalFederated fn_returns
                                             (MkStore tt []))) 1
     = Some (Aborted "link down", [EvColl (RBroadcast (PSize 0) 0)]).
Proof.
  assert (Hlt : 1 < 2) by lia.
  destruct (@first_broadcast_fault Z _ 0%Z unit (link_down 0) fn_returns
              (fun _ => MkStore tt []) 0 (fun m => (m, None))
              (fun _ => MkStore tt []) 1 _ _ None 1 "link down"
              eq_refl eq_refl (fun what Heq => eq_ind None
                 (fun o => match o with None => True | Some _ => False end)
                 I _ Heq) Hlt eq_refl) as [Htry [Happly _]].
  split; [exact Htry|exact Happly].
Defined.

Lemma BroadcastGradient_first_call_is_unguarded_witness :
  outcome_at
    (execute no_fault 2
       (fun r => BroadcastGradient plugin_example "no federated support"
                   true true r VerticalFederated
                   (fun m => (m, Some (DmlcError "no labels")))
                   (MkStore tt [zero_gpair]))) 0
  = Some (Threw (DmlcError "no labels"), [EvApply])
  /\ outcome_at
       (execute no_fault 2
          (fun r => BroadcastGradient plugin_example "no federated support"
                      true true r VerticalFederated
                      (fun m => (m, Some (DmlcError "no labels")))
                      (MkStore tt [zero_gpair]))) 1
     = Some (Hung, [EvColl (RBroadcast (PSize 0) 0)]).
Proof.
  assert (H0 : 0 < 2) by lia. assert (H1 : 1 < 2) by lia.
  split.
  - exact (@BroadcastGradient_first_call_is_unguarded plugin_example
             "no federated support" unit
             (fun m => (m, Some (DmlcError "no labels")))
             (fun _ => MkStore tt [zero_gpair]) 1 no_fault _ _ 0 eq_refl H0).
  - exact (@BroadcastGradient_first_call_is_unguarded plugin_example
             "no federated support" unit
             (fun m => (m, Some (DmlcError "no labels")))
             (fun _ => MkStore tt [zero_gpair]) 1 no_fault _ _ 1 eq_refl H1).
Defined.

Lemma BroadcastGradient_handshake_fault_witness :
  outcome_at
    (execute (link_down 0) 2
       (fun r => BroadcastGradient plugin_example "no federated support"
                   true true r VerticalFederated gradient_example
                   (MkStore tt [zero_gpair]))) 1
  = Some (Aborted "link down", [EvColl (RBroadcast (PSize 0) 0)])
  /\ outcome_at
       (execute (link_down 1) 2
          (fun r => BroadcastGradient plugin_example "no federated support"
                      true true r VerticalFederated gradient_example
                      (MkStore tt [zero_gpair]))) 1
     = Some (Aborted "link down",
             [EvColl (RBroadcast (PSize 0) 0);
              EvResize 16;
              EvColl (RBroadcast (PBytes (repeat Byte.x00 16)) 0)]).
Proof.
  assert (Hlt : 1 < 2) by lia.
  split.
  - exact (proj1 (@BroadcastGradient_handshake_fault plugin_example
             "no federated support" unit gradient_example
             (fun _ => MkStore tt [zero_gpair]) 1 (link_down 0) _ 1
             "link down" eq_refl Hlt) eq_refl).
  - exact (proj2 (@BroadcastGradient_handshake_fault plugin_example
             "no federated support" unit gradient_example
             (fun _ => MkStore tt [zero_gpair]) 1 (link_down 1) _ 1
             "link down" eq_refl Hlt) (fun _ _ => eq_refl) eq_refl).
Defined.

Lemma BroadcastGradient_encrypts_flattened_pairs_witness :
  exists res data tail,
    outcome_at
      (execute no_fault 2
         (fun r => BroadcastGradient plugin_example "no federated support"
                     true true r VerticalFederated gradient_example
                     (MkStore tt [zero_gpair]))) 0
    = Some (res, EvApply :: EvEncrypt data :: tail)
    /\ List.length data = 4
    /\ nth_error data 2 = Some (-2)%float
    /\ nth_error data 3 = Some 1%float.
Proof.
  destruct (@BroadcastGradient_encrypts_flattened_pairs plugin_example
              "no federated support" unit gradient_example
              (fun _ => MkStore tt [zero_gpair]) 1 _ eq_refl)
    as [res [data [tail [Hout [_ [Hlen Hnth]]]]]].
  exists res, data, tail. repeat split.
  - exact Hout.
  - exact Hlen.
  - exact (proj1 (Hnth 1 (MkGradientPair (-2)%float 1%float) eq_refl)).
  - exact (proj2 (Hnth 1 (MkGradientPair (-2)%float 1%float) eq_refl)).
Defined.
